(** * mxnet data-loading interfaces: include/mxnet/io.h

    A shallow embedding of the declarations of [io.h]: the iterator base
    class [IIterator] with its [data_names] store and length hint, the
    [DataInst] and [DataBatch] aggregates, the [Dataset] role and the
    [BatchifyFunction] role with its protected [SanityCheck].

    Sizes ([std::size_t], the result of [vector::size]) are natural numbers:
    a vector never holds more elements than [size_t] can count, so no
    wrap-around is reachable on them.  [int], [int64_t] and [uint64_t]
    values are integers in [Z] with their ranges written out. *)

From Stdlib Require Import ZArith List String Lia.
From stdpp Require Import base tactics option list strings.

Open Scope Z_scope.

(** ** Failures

    [CHECK_GT] and [CHECK_EQ] (dmlc/logging.h) stop the calling function
    with a fatal error that carries the streamed message.  The embedding
    returns the failure as a value; the two checks of [SanityCheck] are told
    apart by constructor.  The remaining constructors are the failures of
    the other roles. *)
Inductive io_error : Type :=
| EmptyBatch
    (* CHECK_GT(bs, 0): "BatchifyFunction should handle at lease 1 sample" *)
| ArityMismatch (i out_size : nat)
    (* CHECK_EQ(inputs[i].size(), out_size):
       "<i>-th input size does not match <out_size>" *)
| IndexOutOfRange
| FieldOutOfRange
| InvalidState
| InvalidConfig
| UpstreamIOError (msg : string).

Inductive result (A : Type) : Type :=
| Ok (a : A)
| Err (e : io_error).
Arguments Ok {A} a.
Arguments Err {A} e.

Definition is_ok {A} (r : result A) : bool :=
  match r with Ok _ => true | Err _ => false end.

Definition bind {A B} (r : result A) (k : A → result B) : result B :=
  match r with
  | Ok a => k a
  | Err e => Err e
  end.

Notation "x ←! r ; k" := (bind r (λ x, k))
  (at level 100, r at next level, right associativity, only parsing).

#[global] Instance io_error_eq_dec : EqDecision io_error.
Proof. solve_decision. Defined.

#[global] Instance result_eq_dec {A} `{EqDecision A} : EqDecision (result A).
Proof. solve_decision. Defined.

(** Ranges of the machine integers that occur in the header. *)
Definition int_min : Z := - 2 ^ 31.
Definition int_max : Z := 2 ^ 31 - 1.
Definition int64_min : Z := - 2 ^ 63.
Definition int64_max : Z := 2 ^ 63 - 1.
Definition uint64_max : Z := 2 ^ 64 - 1.

Definition in_int (z : Z) : Prop := int_min ≤ z ≤ int_max.
Definition in_int64 (z : Z) : Prop := int64_min ≤ z ≤ int64_max.
Definition in_uint64 (z : Z) : Prop := 0 ≤ z ≤ uint64_max.

(** ** class IIterator<DType> *)
Module IIterator.
Section Iter.
Context {DType : Type}.

(** The virtual members, as a derived class supplies them over its own
    state [Self].  [GetLenHint] is virtual with a body in the base class:
    a derived class either overrides it or inherits that body. *)
Record vtable (Self : Type) : Type := {
  Init : list (string * string) → Self → result Self;
  BeforeFirst : Self → Self;
  Next : Self → result (bool * Self);
  Value : Self → result DType;
  GetLenHint_override : option (Self → Z)
}.

(** An iterator object: the derived state, its virtual table and the one
    data member of the base class. *)
Record t (Self : Type) : Type := {
  vptr : vtable Self;
  self : Self;
  data_names : list string
}.

Arguments vptr {Self} _.
Arguments self {Self} _.
Arguments data_names {Self} _.
Arguments GetLenHint_override {Self} _.

(** [data_names.push_back(data_name)] *)
Definition SetDataName {Self} (data_name : string) (it : t Self) : t Self :=
  {| vptr := vptr it;
     self := self it;
     data_names := data_names it ++ [data_name] |}.

(** The body of the base class: [return -1;] *)
Definition GetLenHint_default : Z := -1.

(** Virtual dispatch of [GetLenHint]. *)
Definition GetLenHint {Self} (it : t Self) : Z :=
  match GetLenHint_override (vptr it) with
  | Some f => f (self it)
  | None => GetLenHint_default
  end.

(** "the returned value can be < 0, indicating that the length of
    iterator is unknown" *)
Definition len_unknown (hint : Z) : bool := hint <? 0.

End Iter.
Arguments vptr {DType Self} _.
Arguments self {DType Self} _.
Arguments data_names {DType Self} _.
Arguments GetLenHint_override {DType Self} _.
End IIterator.

(** ** class BatchifyFunction *)
Module BatchifyFunction.
Section Batchify.
Context {NDArray : Type}.

(** The loop [for (size_t i = 1; i < bs; ++i) CHECK_EQ(inputs[i].size(),
    out_size)]: [rest] is [inputs] from position [i] on. *)
Fixpoint check_from (out_size i : nat) (rest : list (list NDArray))
  : result nat :=
  match rest with
  | [] => Ok out_size
  | input_i :: rest' =>
      if decide (length input_i = out_size)
      then check_from out_size (S i) rest'
      else Err (ArityMismatch i out_size)
  end.

Definition SanityCheck (inputs : list (list NDArray)) : result nat :=
  match inputs with
  | [] => Err EmptyBatch                      (* CHECK_GT(bs, 0) *)
  | input_0 :: rest =>
      let out_size := length input_0 in       (* inputs[0].size() *)
      check_from out_size 1 rest
  end.

End Batchify.
End BatchifyFunction.

(** ** Tensors and the data aggregates *)

(** Modelled from the spec: the tensor type [NDArray] is declared in
    ndarray.h, which the header only includes.  A tensor owns a contiguous
    buffer and carries a shape and a dtype descriptor. *)
Record NDArray : Type := {
  shape : list nat;
  dtype : nat;
  buffer : list Z
}.

#[global] Instance NDArray_eq_dec : EqDecision NDArray.
Proof. solve_decision. Defined.

(** The leading dimension; a 0-dimensional tensor has none. *)
Definition leading_dim (t : NDArray) : option nat := head (shape t).

(** [struct DataInst]; [TBlob] is declared outside the header. *)
Module DataInst.
Record t (TBlob : Type) : Type := {
  index : Z;                      (* unsigned index *)
  data : list TBlob;              (* std::vector<TBlob> data *)
  extra_data : string
}.
Arguments index {TBlob} _.
Arguments data {TBlob} _.
Arguments extra_data {TBlob} _.
End DataInst.

(** [struct DataBatch]: a plain aggregate; the header gives it no
    constructor and no check. *)
Record DataBatch : Type := {
  data : list NDArray;            (* std::vector<NDArray> data *)
  index : list Z;                 (* std::vector<uint64_t> index *)
  extra_data : string;
  num_batch_padd : Z              (* int num_batch_padd *)
}.

#[global] Instance DataBatch_eq_dec : EqDecision DataBatch.
Proof. solve_decision. Defined.

(** The invariant of a batch: one index per stacked entry, every field
    stacked to that leading dimension, and a pad count between zero and
    the number of entries. *)
Definition batch_invariant (b : DataBatch) : Prop :=
  Forall (λ t, leading_dim t = Some (length (index b))) (data b)
  ∧ 0 ≤ num_batch_padd b
  ∧ num_batch_padd b ≤ Z.of_nat (length (index b)).

(** The values that the members of a [DataBatch] can hold:
    [num_batch_padd] is an [int] and every index a [uint64_t]. *)
Definition representable (b : DataBatch) : Prop :=
  in_int (num_batch_padd b) ∧ Forall in_uint64 (index b).

(** ** Collation: the shape of [Batchify] *)
Module Collate.
Import BatchifyFunction.

(** Modelled from the spec: [Batchify] is pure virtual in the header and
    its overrides are not part of it.  Every batchifier validates with
    [SanityCheck] before its stacking logic [stack] runs; [stack] receives
    the field count that the validation returned. *)
Definition Batchify {T : Type}
    (stack : nat → list (list T) → result (list T))
    (inputs : list (list T)) : result (list T) :=
  out_size ←! SanityCheck inputs; stack out_size inputs.

End Collate.

(** ** class Dataset *)
Module Dataset.

(** Modelled from the spec: [GetLen], [GetOutputSize] and [GetItem] are
    pure virtual in the header and no dataset is part of it.  A dataset is
    a static lookup storage: after [Init] its length and its output size
    are fixed and every item in range is stored. *)
Record t : Type := {
  initialized : bool;
  len : Z;                               (* uint64_t GetLen() *)
  output_size : Z;                       (* int GetOutputSize() *)
  item : Z → Z → NDArray * bool          (* stored array and is_scalar *)
}.

Definition GetLen (d : t) : result Z :=
  if initialized d then Ok (len d) else Err InvalidState.

Definition GetOutputSize (d : t) : result Z :=
  if initialized d then Ok (output_size d) else Err InvalidState.

(** The contract names two range violations and does not say which one
    is examined first; both orders are kept. *)
Inductive range_check : Type :=
| IndexFirst
| FieldFirst.

(** Modelled from the spec: [GetItem(idx, n, is_scalar)] needs [idx] in
    [[0, len)] and [n] in [[0, output_size)], and fails with
    [IndexOutOfRange] or [FieldOutOfRange] on violation. *)
Definition GetItem (order : range_check) (d : t) (idx n : Z)
  : result (NDArray * bool) :=
  if negb (initialized d) then Err InvalidState
  else
    let index_ok := bool_decide (0 ≤ idx < len d) in
    let field_ok := bool_decide (0 ≤ n < output_size d) in
    match order with
    | IndexFirst =>
        if negb index_ok then Err IndexOutOfRange
        else if negb field_ok then Err FieldOutOfRange
        else Ok (item d idx n)
    | FieldFirst =>
        if negb field_ok then Err FieldOutOfRange
        else if negb index_ok then Err IndexOutOfRange
        else Ok (item d idx n)
    end.

(** A dataset is well formed when its length is a [uint64_t] and its
    output size an [int]. *)
Definition wf (d : t) : Prop :=
  initialized d = true ∧ in_uint64 (len d) ∧ in_int (output_size d).

End Dataset.


(** ** The sequential role: a streaming iterator *)
Module StreamingIterator.
Section Stream.
Context {Batch Src : Type}.

(** Modelled from the spec: [Init], [BeforeFirst], [Next] and [Value] are
    pure virtual in the header and no iterator is part of it.  A concrete
    data source supplies a cursor type [Src] with the three primitives
    below; [fetch] yields the next batch and the advanced cursor, [None]
    when no more data remains, or a fatal upstream error. *)
Record source : Type := {
  configure : list (string * string) → result Src;
  rewind : Src → Src;
  fetch : Src → result (option (Batch * Src))
}.

(** Modelled from the spec: the states [Uninitialized -> Ready ->
    Exhausted] of the iterator contract. *)
Inductive state : Type :=
| Uninitialized
| Ready (cursor : Src) (current : option Batch)
| Exhausted (cursor : Src).

Variable P : source.

(** [init] is called once, before any other call. *)
Definition init (config : list (string * string)) (st : state)
  : result state :=
  match st with
  | Uninitialized => s ←! configure P config; Ok (Ready s None)
  | _ => Err InvalidState
  end.

(** [before_first] repositions the cursor to the beginning of the epoch. *)
Definition before_first (st : state) : result state :=
  match st with
  | Uninitialized => Err InvalidState
  | Ready s _ => Ok (Ready (rewind P s) None)
  | Exhausted s => Ok (Ready (rewind P s) None)
  end.

(** [next] advances the cursor: true with a new current value, or false
    with the transition to [Exhausted] when no more data remains.  The
    contract assigns no transition to a failing call. *)
Definition next (st : state) : result bool * state :=
  match st with
  | Uninitialized => (Err InvalidState, st)
  | Exhausted _ => (Ok false, st)
  | Ready s _ =>
      match fetch P s with
      | Ok (Some (b, s')) => (Ok true, Ready s' (Some b))
      | Ok None => (Ok false, Exhausted s)
      | Err e => (Err e, st)
      end
  end.

(** [value] returns the batch of the most recent true-returning [next]. *)
Definition value (st : state) : result Batch :=
  match st with
  | Ready _ (Some b) => Ok b
  | _ => Err InvalidState
  end.

(** The calls a consumer can make, and what each one answers. *)
Inductive call : Type :=
| CallInit (config : list (string * string))
| CallBeforeFirst
| CallNext
| CallValue.

Inductive reply : Type :=
| Initialised (r : result unit)
| Repositioned (r : result unit)
| Advanced (r : result bool)
| Current (r : result Batch).

Definition keep (r : result state) (st : state) : result unit * state :=
  match r with
  | Ok st' => (Ok tt, st')
  | Err e => (Err e, st)
  end.

Definition perform (c : call) (st : state) : reply * state :=
  match c with
  | CallInit config => let '(r, st') := keep (init config st) st in
                       (Initialised r, st')
  | CallBeforeFirst => let '(r, st') := keep (before_first st) st in
                       (Repositioned r, st')
  | CallNext => let '(r, st') := next st in (Advanced r, st')
  | CallValue => (Current (value st), st)
  end.

Fixpoint run (calls : list call) (st : state) : list reply * state :=
  match calls with
  | [] => ([], st)
  | c :: calls' =>
      let '(r, st') := perform c st in
      let '(rs, st'') := run calls' st' in
      (r :: rs, st'')
  end.

(** [yields st bs]: from [st], the calls [next(); value()] deliver exactly
    the batches [bs] and then [next()] returns false. *)
Inductive yields : state → list Batch → Prop :=
| yields_end st st' :
    next st = (Ok false, st') → yields st []
| yields_more st st' b bs :
    next st = (Ok true, st') → value st' = Ok b → yields st' bs →
    yields st (b :: bs).

(** A batch that some read of the source returned. *)
Definition produced (b : Batch) : Prop :=
  ∃ s s', fetch P s = Ok (Some (b, s')).

(** A property of batches, lifted to the batch that a state holds and to
    the batch that a reply carries. *)
Definition holds_current (Good : Batch → Prop) (st : state) : Prop :=
  match st with
  | Ready _ (Some b) => Good b
  | _ => True
  end.

Definition holds_reply (Good : Batch → Prop) (r : reply) : Prop :=
  match r with
  | Current (Ok b) => Good b
  | _ => True
  end.

(** Every epoch that starts at cursor [s] is a finite sequence of batches. *)
Definition finite_epoch (s : Src) : Prop :=
  ∃ bs, yields (Ready s None) bs.

(** [fetched s bs s']: reading from cursor [s] returns the batches [bs] one
    after the other and leaves the cursor at [s']. *)
Inductive fetched : Src → list Batch → Src → Prop :=
| fetched_nil s : fetched s [] s
| fetched_cons s b s1 bs s' :
    fetch P s = Ok (Some (b, s1)) → fetched s1 bs s' →
    fetched s (b :: bs) s'.

End Stream.
Arguments source : clear implicits.
Arguments state : clear implicits.
Arguments reply : clear implicits.

(** A source that replays a fixed script: each entry is a batch or the
    error that the read at that position raises. *)
Definition script_source {Batch} (script : list (result Batch))
  : source Batch nat :=
  {| configure := λ _, Ok 0%nat;
     rewind := λ _, 0%nat;
     fetch := λ pos,
       match script !! pos with
       | None => Ok None
       | Some (Ok b) => Ok (Some (b, S pos))
       | Some (Err e) => Err e
       end |}.

End StreamingIterator.

(** ** The composition wrapper: a prefetching iterator *)
Module PrefetchingIterator.
Module SI := StreamingIterator.
Section Prefetch.
Context {Batch Src : Type}.
Variable P : SI.source Batch Src.

(** What travels through the bounded queue: a batch, or the end-of-epoch
    sentinel. *)
Inductive item : Type :=
| QBatch (b : Batch)
| QEnd.

(** The background loop: about to call the inner [next], holding an item
    that it pushes as soon as the queue has room, or stopped. *)
Inductive worker_state : Type :=
| Running
| Holding (it : item)
| Stopped.

(** [Failed] is the terminal form of exhaustion that follows a surfaced
    background error. *)
Inductive phase : Type :=
| Ready
| Exhausted
| Failed.

(** Modelled from the spec: the wrapper is named in the header only by a
    comment ([new PrefetcherIter(new MNISTIter())]).  It owns the inner
    iterator, a queue bounded by the lookahead depth, the state of the
    background loop, the captured background error and the consumer side
    (current batch and phase). *)
Record t : Type := {
  depth : nat;
  inner : SI.state Batch Src;
  queue : list item;
  worker : worker_state;
  captured : option io_error;
  current : option Batch;
  status : phase
}.

Definition start (lookahead : nat) (st : SI.state Batch Src) : t :=
  {| depth := lookahead; inner := st; queue := []; worker := Running;
     captured := None; current := None; status := Ready |}.

Definition init (lookahead : nat) (config : list (string * string))
  : result t :=
  st ←! SI.init P config SI.Uninitialized; Ok (start lookahead st).

(** The worker captures an error and stops. *)
Definition capture (e : io_error) (st : SI.state Batch Src) (w : t) : t :=
  {| depth := depth w; inner := st; queue := queue w; worker := Stopped;
     captured := Some e; current := current w; status := status w |}.

Definition hold (it : item) (st : SI.state Batch Src) (w : t) : t :=
  {| depth := depth w; inner := st; queue := queue w; worker := Holding it;
     captured := captured w; current := current w; status := status w |}.

Definition push (it : item) (w : t) : t :=
  {| depth := depth w; inner := inner w; queue := queue w ++ [it];
     worker := match it with QBatch _ => Running | QEnd => Stopped end;
     captured := captured w; current := current w; status := status w |}.

(** One move of the background loop; [None] when it cannot move (stopped,
    or blocked on a full queue).  The loop calls the inner [next]; on true
    it pushes the inner [value()], on false the sentinel, after which it
    stops; an error of the inner iterator is captured. *)
Definition produce (w : t) : option t :=
  match worker w with
  | Stopped => None
  | Holding it =>
      if decide (length (queue w) < depth w)%nat then Some (push it w)
      else None
  | Running =>
      match SI.next P (inner w) with
      | (Ok true, st) =>
          match SI.value st with
          | Ok b => Some (hold (QBatch b) st w)
          | Err e => Some (capture e st w)
          end
      | (Ok false, st) => Some (hold QEnd st w)
      | (Err e, st) => Some (capture e st w)
      end
  end.

(** What the consumer observes. *)
Inductive outcome : Type :=
| Produced                       (* a move of the background loop *)
| NextIs (more : bool)           (* next() returned *)
| ValueIs (b : Batch)            (* value() returned *)
| Rethrown (e : io_error)        (* the captured error, re-raised *)
| Invalid                        (* InvalidState *)
| Rewound.                       (* before_first() returned *)

Definition fail (w : t) : t :=
  {| depth := depth w; inner := inner w; queue := queue w;
     worker := worker w; captured := None; current := None;
     status := Failed |}.

Definition deliver (b : Batch) (q : list item) (w : t) : t :=
  {| depth := depth w; inner := inner w; queue := q; worker := worker w;
     captured := captured w; current := Some b; status := status w |}.

Definition finish (q : list item) (w : t) : t :=
  {| depth := depth w; inner := inner w; queue := q; worker := worker w;
     captured := captured w; current := None; status := Exhausted |}.

(** The consumer's [next]; [None] when the call blocks on an empty queue. *)
Definition call_next (w : t) : option (outcome * t) :=
  match status w with
  | Exhausted | Failed => Some (NextIs false, w)
  | Ready =>
      match captured w with
      | Some e => Some (Rethrown e, fail w)
      | None =>
          match queue w with
          | [] => None
          | QBatch b :: q => Some (NextIs true, deliver b q w)
          | QEnd :: q => Some (NextIs false, finish q w)
          end
      end
  end.

(** The consumer's [value]. *)
Definition call_value (w : t) : outcome * t :=
  match status w with
  | Exhausted | Failed => (Invalid, w)
  | Ready =>
      match captured w with
      | Some e => (Rethrown e, fail w)
      | None =>
          match current w with
          | Some b => (ValueIs b, w)
          | None => (Invalid, w)
          end
      end
  end.

(** [before_first]: the background loop is stopped, the queue discarded,
    the inner iterator reset and the loop restarted, as one step.  After a
    background error the wrapper does not resume production. *)
Definition call_before_first (w : t) : outcome * t :=
  match status w, captured w with
  | Failed, _ => (Rewound, w)
  | _, Some _ => (Rewound, w)
  | _, None =>
      match SI.before_first P (inner w) with
      | Ok st => (Rewound, start (depth w) st)
      | Err _ => (Invalid, w)
      end
  end.

(** The consumer's loop body [if (next()) use(value())] as one move. *)
Definition pull (w : t) : option (outcome * t) :=
  match call_next w with
  | Some (NextIs true, w') => Some (call_value w')
  | other => other
  end.

Inductive action : Type :=
| Produce
| CallNext
| CallValue
| CallBeforeFirst.

Definition step (a : action) (w : t) : option (outcome * t) :=
  match a with
  | Produce => (λ w', (Produced, w')) <$> produce w
  | CallNext => call_next w
  | CallValue => Some (call_value w)
  | CallBeforeFirst => Some (call_before_first w)
  end.

(** A schedule is executed move by move; it has no execution when one of
    its moves is not enabled. *)
Fixpoint exec (sched : list action) (w : t) : option (list outcome * t) :=
  match sched with
  | [] => Some ([], w)
  | a :: sched' =>
      match step a w with
      | None => None
      | Some (o, w') =>
          match exec sched' w' with
          | None => None
          | Some (os, w'') => Some (o :: os, w'')
          end
      end
  end.

(** Interleavings of the background loop with a consumer that runs the
    loop [while (next()) use(value())]. *)
Inductive tick : Type :=
| Producer
| Consumer.

Definition tick_step (tk : tick) (w : t) : option (outcome * t) :=
  match tk with
  | Producer => (λ w', (Produced, w')) <$> produce w
  | Consumer => pull w
  end.

Fixpoint interleave (ticks : list tick) (w : t)
  : option (list outcome * t) :=
  match ticks with
  | [] => Some ([], w)
  | tk :: ticks' =>
      match tick_step tk w with
      | None => None
      | Some (o, w') =>
          match interleave ticks' w' with
          | None => None
          | Some (os, w'') => Some (o :: os, w'')
          end
      end
  end.

(** The batches that the consumer received through [value()]. *)
Definition delivered (obs : list outcome) : list Batch :=
  omap (λ o, match o with ValueIs b => Some b | _ => None end) obs.

Definition rethrown (obs : list outcome) : list io_error :=
  omap (λ o, match o with Rethrown e => Some e | _ => None end) obs.

Definition saw_end (obs : list outcome) : Prop := NextIs false ∈ obs.

Definition consumer_call (a : action) : bool :=
  match a with
  | CallNext | CallValue => true
  | Produce | CallBeforeFirst => false
  end.

(** The bookkeeping of an error-free epoch over the inner sequence [bs]:
    [dl] has been delivered, the queue and the worker hold the batches that
    follow, and the inner iterator still yields the rest.  [credit] counts
    the moves that remain before the consumer is told that the epoch has
    ended. *)
Inductive in_flight (bs dl : list Batch) (w : t) : nat → Prop :=
| flight_running qs rest :
    worker w = Running → status w = Ready → queue w = QBatch <$> qs →
    SI.yields P (inner w) rest → bs = dl ++ qs ++ rest →
    in_flight bs dl w (3 * length rest + 2 + length qs)
| flight_holding b qs rest :
    worker w = Holding (QBatch b) → status w = Ready →
    queue w = QBatch <$> qs →
    SI.yields P (inner w) rest → bs = dl ++ qs ++ b :: rest →
    in_flight bs dl w (3 * length rest + 4 + length qs)
| flight_holding_end qs :
    worker w = Holding QEnd → status w = Ready → queue w = QBatch <$> qs →
    bs = dl ++ qs →
    in_flight bs dl w (1 + length qs)
| flight_stopped qs :
    worker w = Stopped → status w = Ready →
    queue w = (QBatch <$> qs) ++ [QEnd] → bs = dl ++ qs →
    in_flight bs dl w (length qs)
| flight_done :
    worker w = Stopped → status w = Exhausted → bs = dl →
    in_flight bs dl w 0.

(** A property of batches, lifted to everything in the wrapper that holds
    a batch and to the outcome that carries one. *)
Definition holds_item (Good : Batch → Prop) (it : item) : Prop :=
  match it with
  | QBatch b => Good b
  | QEnd => True
  end.

Definition holds_wrapper (Good : Batch → Prop) (w : t) : Prop :=
  Forall (holds_item Good) (queue w)
  ∧ match worker w with
    | Holding it => holds_item Good it
    | _ => True
    end
  ∧ match current w with
    | Some b => Good b
    | None => True
    end.

Definition holds_outcome (Good : Batch → Prop) (o : outcome) : Prop :=
  match o with
  | ValueIs b => Good b
  | _ => True
  end.

(** The consumer's side of a schedule: the calls it makes on the wrapper,
    as calls on an iterator, and the outcomes it sees. *)
Definition call_of (a : action) : option SI.call :=
  match a with
  | Produce => None
  | CallNext => Some SI.CallNext
  | CallValue => Some SI.CallValue
  | CallBeforeFirst => Some SI.CallBeforeFirst
  end.

Definition calls_of (sched : list action) : list SI.call :=
  omap call_of sched.

Definition visible (obs : list outcome) : list outcome :=
  omap (λ o, match o with Produced => None | _ => Some o end) obs.

(** What a reply of the inner iterator looks like to the consumer. *)
Definition as_outcome (r : SI.reply Batch) : outcome :=
  match r with
  | SI.Advanced (Ok more) => NextIs more
  | SI.Advanced (Err e) => Rethrown e
  | SI.Current (Ok b) => ValueIs b
  | SI.Current (Err _) => Invalid
  | SI.Repositioned (Ok _) => Rewound
  | SI.Repositioned (Err _) => Invalid
  | SI.Initialised _ => Invalid
  end.

(** [mirrors r w ref]: the wrapper [w] stands for an iterator in state
    [ref] used without a wrapper.  The consumer side agrees with [ref];
    the inner iterator has read ahead of [ref] exactly the batches that
    wait in the queue and in the hands of the background loop; every
    cursor involved rewinds to [r]. *)
Inductive mirrors (r : Src) (w : t) : SI.state Batch Src → Prop :=
| mirrors_running s pending s_in cur_in :
    status w = Ready → captured w = None → worker w = Running →
    queue w = QBatch <$> pending → inner w = SI.Ready s_in cur_in →
    SI.fetched P s pending s_in → SI.finite_epoch P s_in →
    SI.rewind P s = r →
    mirrors r w (SI.Ready s (current w))
| mirrors_holding s qs b s_in cur_in :
    status w = Ready → captured w = None → worker w = Holding (QBatch b) →
    queue w = QBatch <$> qs → inner w = SI.Ready s_in cur_in →
    SI.fetched P s (qs ++ [b]) s_in → SI.finite_epoch P s_in →
    SI.rewind P s = r →
    mirrors r w (SI.Ready s (current w))
| mirrors_holding_end s pending s_in :
    status w = Ready → captured w = None → worker w = Holding QEnd →
    queue w = QBatch <$> pending → inner w = SI.Exhausted s_in →
    SI.fetched P s pending s_in → SI.fetch P s_in = Ok None →
    SI.rewind P s = r →
    mirrors r w (SI.Ready s (current w))
| mirrors_stopped s pending s_in :
    status w = Ready → captured w = None → worker w = Stopped →
    queue w = (QBatch <$> pending) ++ [QEnd] →
    inner w = SI.Exhausted s_in →
    SI.fetched P s pending s_in → SI.fetch P s_in = Ok None →
    SI.rewind P s = r →
    mirrors r w (SI.Ready s (current w))
| mirrors_done s :
    status w = Exhausted → captured w = None → worker w = Stopped →
    inner w = SI.Exhausted s → SI.rewind P s = r →
    mirrors r w (SI.Exhausted s).

End Prefetch.
Arguments t : clear implicits.
Arguments item : clear implicits.
Arguments worker_state : clear implicits.
Arguments outcome : clear implicits.
End PrefetchingIterator.

(** ** Concrete inputs used to exercise the statements below *)
Module Examples.

(** An iterator class that inherits the base-class length hint. *)
Definition counting_vtable : @IIterator.vtable nat nat :=
  {| IIterator.Init := λ _ n, Ok n;
     IIterator.BeforeFirst := λ _, 0%nat;
     IIterator.Next := λ n, Ok (true, S n);
     IIterator.Value := λ n, Ok n;
     IIterator.GetLenHint_override := None |}.

Definition counting_iterator : IIterator.t nat :=
  {| IIterator.vptr := counting_vtable;
     IIterator.self := 0%nat;
     IIterator.data_names := ["data"; "label"] |}.

(** Three samples; the last one has one field where the others have two. *)
Definition ragged_inputs : list (list nat) := [[1; 2]; [3; 4]; [5]]%nat.

Definition no_stack : nat → list (list nat) → result (list nat) :=
  λ _ _, Ok [].

(** A stored dataset of three samples with two fields each. *)
Definition small_dataset : Dataset.t :=
  {| Dataset.initialized := true;
     Dataset.len := 3;
     Dataset.output_size := 2;
     Dataset.item := λ idx n,
       ({| shape := [2%nat]; dtype := 0%nat; buffer := [idx; n] |}, false) |}.

(** A dataset whose samples have no field. *)
Definition zero_field_dataset : Dataset.t :=
  {| Dataset.initialized := true;
     Dataset.len := 3;
     Dataset.output_size := 0;
     Dataset.item := λ idx n,
       ({| shape := []; dtype := 0%nat; buffer := [] |}, true) |}.

(** A batch with a negative pad count, and two ways in which it reaches a
    consumer: an iterator class over [DataBatch] whose [Value] returns it,
    and a data source that produces it. *)
Definition negative_pad_batch : DataBatch :=
  {| data := []; index := []; extra_data := ""; num_batch_padd := -1 |}.

Definition careless_vtable : @IIterator.vtable DataBatch unit :=
  {| IIterator.Init := λ _ u, Ok u;
     IIterator.BeforeFirst := λ u, u;
     IIterator.Next := λ u, Ok (true, u);
     IIterator.Value := λ _, Ok negative_pad_batch;
     IIterator.GetLenHint_override := None |}.

Definition careless_iterator : IIterator.t unit :=
  {| IIterator.vptr := careless_vtable;
     IIterator.self := tt;
     IIterator.data_names := [] |}.

Definition careless_source : StreamingIterator.source DataBatch nat :=
  StreamingIterator.script_source [Ok negative_pad_batch].

(** A batch of two entries, one of them padding, and a source of it. *)
Definition tidy_batch : DataBatch :=
  {| data := [ {| shape := [2; 3]%nat; dtype := 0%nat;
                  buffer := [1; 2; 3; 1; 2; 3] |} ];
     index := [7; 7];
     extra_data := "";
     num_batch_padd := 1 |}.

Definition tidy_source : StreamingIterator.source DataBatch nat :=
  StreamingIterator.script_source [Ok tidy_batch].

(** A source of three batches, named by numbers. *)
Definition three_batches : StreamingIterator.source nat nat :=
  StreamingIterator.script_source [Ok 10; Ok 11; Ok 12]%nat.

(** A source whose second read fails. *)
Definition failing_source : StreamingIterator.source nat nat :=
  StreamingIterator.script_source
    [Ok 10%nat; Err (UpstreamIOError "truncated record")].

(** What a consumer receives from [three_batches] under an interleaving. *)
Definition consumed (lookahead : nat) (ticks : list PrefetchingIterator.tick)
  : option (list nat) :=
  match PrefetchingIterator.interleave three_batches ticks
          (PrefetchingIterator.start lookahead
             (StreamingIterator.Ready 0%nat None)) with
  | Some (obs, _) => Some (PrefetchingIterator.delivered obs)
  | None => None
  end.

End Examples.

(** * Properties *)

(** ** [SanityCheck] *)
Section SanityCheckFacts.
Import BatchifyFunction Collate.
Context {T : Type}.
Implicit Types (inputs rest : list (list T)) (sample : list T).

Lemma check_from_uniform out_size i rest :
  Forall (λ sample, length sample = out_size) rest →
  check_from out_size i rest = Ok out_size.
Proof.
  intros Hall. revert i.
  induction Hall as [|sample rest Hlen _ IH]; intros i; simpl; [done|].
  destruct (decide (length sample = out_size)); [apply IH | done].
Qed.

(** A failing loop stops at the first position whose size differs. *)
Lemma check_from_first_mismatch out_size i rest :
  Exists (λ sample, length sample ≠ out_size) rest →
  ∃ k bad,
    rest !! k = Some bad ∧ length bad ≠ out_size
    ∧ (∀ k' sample, (k' < k)%nat → rest !! k' = Some sample →
         length sample = out_size)
    ∧ check_from out_size i rest = Err (ArityMismatch (i + k) out_size).
Proof.
  revert i. induction rest as [|sample rest IH]; intros i Hex.
  - inversion Hex.
  - simpl. destruct (decide (length sample = out_size)) as [Heq|Hne].
    + assert (Hrest : Exists (λ s, length s ≠ out_size) rest).
      { inversion Hex; subst; [done | assumption]. }
      destruct (IH (S i) Hrest) as (k & bad & Hk & Hbad & Hbefore & Hres).
      exists (S k), bad. repeat split; try assumption.
      * intros [|k'] s Hlt Hs; simpl in Hs.
        -- by inversion Hs; subst.
        -- eapply Hbefore; [|exact Hs]. lia.
      * rewrite Hres. do 2 f_equal. lia.
    + exists 0%nat, sample. repeat split; try done.
      * intros k' s Hlt. lia.
      * do 2 f_equal. lia.
Qed.

(** The result is a function of the field counts alone. *)
Lemma check_from_counts_only {U} out_size i rest (others : list (list U)) :
  length <$> others = length <$> rest →
  check_from out_size i others = check_from out_size i rest.
Proof.
  revert i rest. induction others as [|o others IH]; intros i [|r rest] Heq;
    simpl in *; try done.
  injection Heq as Hlen Htl. rewrite Hlen.
  destruct (decide (length r = out_size)); [by apply IH | done].
Qed.

Lemma SanityCheck_counts_only {U} inputs (others : list (list U)) :
  length <$> others = length <$> inputs →
  SanityCheck others = SanityCheck inputs.
Proof.
  destruct others as [|o others], inputs as [|r rest]; simpl; try done.
  intros Heq. injection Heq as Hlen Htl. rewrite Hlen.
  by apply check_from_counts_only.
Qed.

Lemma SanityCheck_ok_inv inputs n :
  SanityCheck inputs = Ok n →
  ∃ first rest, inputs = first :: rest ∧ n = length first
    ∧ Forall (λ sample, length sample = n) inputs.
Proof.
  destruct inputs as [|first rest]; simpl; [done|]. intros Hok.
  destruct (decide (Forall (λ s, length s = length first) rest)) as [Hall|Hno].
  - rewrite check_from_uniform in Hok by done. injection Hok as <-.
    exists first, rest. repeat split. by constructor.
  - apply not_Forall_Exists in Hno; [|intros s; apply _].
    destruct (check_from_first_mismatch (length first) 1 rest)
      as (k & bad & _ & _ & _ & Herr).
    { eapply Exists_impl; [exact Hno|]. simpl. intros s Hs. exact Hs. }
    congruence.
Qed.

(** C1: on an input with at least one sample, if some sample's field count
    differs from the first sample's, [SanityCheck] fails with
    [ArityMismatch] at the first such sample, and so does [Batchify]
    whatever its stacking logic is, which therefore never runs; the outcome
    of the validation depends on the field counts only, not on the fields. *)
Theorem batchify_arity_mismatch
    (stack : nat → list (list T) → result (list T)) inputs first :
  inputs !! 0%nat = Some first →
  (∃ j sample, inputs !! j = Some sample ∧ length sample ≠ length first) →
  (∃ i bad,
      (1 ≤ i)%nat ∧ inputs !! i = Some bad ∧ length bad ≠ length first
      ∧ (∀ k sample, (k < i)%nat → inputs !! k = Some sample →
           length sample = length first)
      ∧ SanityCheck inputs = Err (ArityMismatch i (length first))
      ∧ Batchify stack inputs = Err (ArityMismatch i (length first)))
  ∧ (∀ (U : Type) (others : list (list U)),
        length <$> others = length <$> inputs →
        SanityCheck others = SanityCheck inputs).
Proof.
  intros Hfirst (j & sample & Hj & Hne).
  destruct inputs as [|first' rest]; [done|].
  simpl in Hfirst. injection Hfirst as ->.
  split; [|intros U others; apply SanityCheck_counts_only].
  assert (Hex : Exists (λ s, length s ≠ length first) rest).
  { destruct j as [|j]; simpl in Hj.
    - injection Hj as ->. done.
    - apply Exists_exists. exists sample. split; [|done].
      eapply list_elem_of_lookup_2; exact Hj. }
  destruct (check_from_first_mismatch (length first) 1 rest Hex)
    as (k & bad & Hk & Hbad & Hbefore & Hres).
  exists (S k), bad. repeat split; try done.
  - lia.
  - intros [|k'] s Hlt Hs; simpl in Hs.
    + by injection Hs as ->.
    + eapply Hbefore; [|exact Hs]. lia.
  - unfold Batchify. simpl. by rewrite Hres.
Qed.

(** C2: on the empty sequence the validation fails with [EmptyBatch] and
    [Batchify] returns that failure instead of an output; whenever the
    validation or [Batchify] succeeds, the input held at least one sample. *)
Theorem batchify_empty (stack : nat → list (list T) → result (list T)) :
  SanityCheck ([] : list (list T)) = Err EmptyBatch
  ∧ Batchify stack [] = Err EmptyBatch
  ∧ (∀ inputs n, SanityCheck inputs = Ok n → (1 ≤ length inputs)%nat)
  ∧ (∀ inputs out, Batchify stack inputs = Ok out → (1 ≤ length inputs)%nat).
Proof.
  repeat split.
  - intros [|first rest] n; simpl; [done | lia].
  - intros [|first rest] out; simpl; [done | lia].
Qed.

(** C10: on an input of exactly one sample the validation succeeds and
    returns that sample's field count; a sample without fields is accepted
    and gives 0. *)
Theorem sanity_check_single sample :
  SanityCheck [sample] = Ok (length sample)
  ∧ SanityCheck [([] : list T)] = Ok 0%nat.
Proof. split; reflexivity. Qed.

End SanityCheckFacts.

Lemma batchify_arity_mismatch_witness :
  Examples.ragged_inputs !! 0%nat = Some [1; 2]%nat
  ∧ (∃ i bad,
        (1 ≤ i)%nat ∧ Examples.ragged_inputs !! i = Some bad
        ∧ length bad ≠ length [1; 2]%nat
        ∧ (∀ k sample, (k < i)%nat →
             Examples.ragged_inputs !! k = Some sample →
             length sample = length [1; 2]%nat)
        ∧ BatchifyFunction.SanityCheck Examples.ragged_inputs
          = Err (ArityMismatch i (length [1; 2]%nat))
        ∧ Collate.Batchify Examples.no_stack Examples.ragged_inputs
          = Err (ArityMismatch i (length [1; 2]%nat))).
Proof.
  split; [reflexivity|].
  apply (batchify_arity_mismatch Examples.no_stack
           Examples.ragged_inputs [1; 2]%nat).
  - reflexivity.
  - exists 2%nat, [5%nat]. split; [reflexivity | simpl; lia].
Defined.

Lemma batchify_empty_witness :
  BatchifyFunction.SanityCheck [[7; 8]%nat] = Ok 2%nat
  ∧ (1 ≤ length [[7; 8]%nat])%nat.
Proof.
  split; [reflexivity|].
  apply (proj1 (proj2 (proj2 (batchify_empty Examples.no_stack)))
           [[7; 8]%nat] 2%nat).
  reflexivity.
Defined.

(** ** [IIterator]: the length hint and the data names *)
Section IIteratorFacts.
Import IIterator.
Context {DType Self : Type}.
Implicit Types (it : IIterator.t (DType := DType) Self).

Lemma len_unknown_spec (hint : Z) : len_unknown hint = true ↔ hint < 0.
Proof. unfold len_unknown. apply Z.ltb_lt. Qed.

(** C8: the length hint is a signed 64-bit integer whose negative values
    mean that the length is unknown; an iterator that inherits the
    base-class body answers -1, which is such a value. *)
Theorem len_hint_default it :
  GetLenHint_override (vptr it) = None →
  GetLenHint it = -1
  ∧ in_int64 (GetLenHint it)
  ∧ len_unknown (GetLenHint it) = true
  ∧ (∀ hint : Z, len_unknown hint = true ↔ hint < 0).
Proof.
  intros Hinherit. unfold GetLenHint. rewrite Hinherit.
  unfold GetLenHint_default, in_int64, int64_min, int64_max.
  repeat split; try lia; apply len_unknown_spec; assumption.
Qed.

(** C9: [SetDataName s] stores [s] as the new last element of
    [data_names]; the length grows by exactly one, the names stored before
    keep their positions, and nothing else of the iterator changes. *)
Theorem set_data_name_appends it (s : string) :
  data_names (SetDataName s it) = data_names it ++ [s]
  ∧ last (data_names (SetDataName s it)) = Some s
  ∧ length (data_names (SetDataName s it)) = S (length (data_names it))
  ∧ take (length (data_names it)) (data_names (SetDataName s it))
    = data_names it
  ∧ (∀ i : nat, (i < length (data_names it))%nat →
       data_names (SetDataName s it) !! i = data_names it !! i)
  ∧ self (SetDataName s it) = self it
  ∧ vptr (SetDataName s it) = vptr it.
Proof.
  simpl. repeat split.
  - apply last_snoc.
  - rewrite length_app. simpl. lia.
  - by rewrite take_app_length.
  - intros i Hi. by rewrite lookup_app_l.
Qed.

End IIteratorFacts.

Lemma len_hint_default_witness :
  IIterator.GetLenHint_override (IIterator.vptr Examples.counting_iterator)
    = None
  ∧ IIterator.GetLenHint Examples.counting_iterator = -1.
Proof.
  split; [reflexivity|].
  apply (len_hint_default Examples.counting_iterator). reflexivity.
Defined.

Lemma set_data_name_appends_witness :
  (1 < length (IIterator.data_names Examples.counting_iterator))%nat
  ∧ IIterator.data_names
      (IIterator.SetDataName "weight" Examples.counting_iterator) !! 1%nat
    = Some "label".
Proof.
  split; [simpl; lia|].
  destruct (set_data_name_appends Examples.counting_iterator "weight")
    as (_ & _ & _ & _ & Hkeep & _).
  rewrite (Hkeep 1%nat); [reflexivity | simpl; lia].
Defined.

(** ** [Dataset]: access by index and field *)
Section DatasetFacts.
Import Dataset.

Lemma GetItem_cases order d idx n :
  initialized d = true →
  GetItem order d idx n
  = if bool_decide (0 ≤ idx < len d)
    then if bool_decide (0 ≤ n < output_size d) then Ok (item d idx n)
         else Err FieldOutOfRange
    else if bool_decide (0 ≤ n < output_size d) then Err IndexOutOfRange
         else match order with
              | IndexFirst => Err IndexOutOfRange
              | FieldFirst => Err FieldOutOfRange
              end.
Proof.
  intros Hinit. unfold GetItem. rewrite Hinit. simpl.
  destruct order; repeat case_bool_decide; reflexivity.
Qed.


End DatasetFacts.



(** ** [StreamingIterator]: exhaustion is sticky *)
Section StreamFacts.
Import StreamingIterator.
Context {Batch Src : Type}.
Variable P : source Batch Src.

Lemma next_false_exhausted st st' :
  next P st = (Ok false, st') → ∃ s, st' = Exhausted s.
Proof.
  destruct st as [|s cur|s]; simpl; [done| |].
  - destruct (fetch P s) as [[[b s']|]|e]; intros [= <-]; eauto.
  - intros [= <-]; eauto.
Qed.

Lemma run_exhausted s calls :
  CallBeforeFirst ∉ calls →
  (run P calls (Exhausted s)).2 = Exhausted s
  ∧ ∀ r, Advanced r ∈ (run P calls (Exhausted s)).1 → r = Ok false.
Proof.
  induction calls as [|c calls IH]; intros Hno; simpl.
  - split; [done|]. intros r Hr. by apply elem_of_nil in Hr.
  - apply not_elem_of_cons in Hno as [Hc Hno]. specialize (IH Hno).
    destruct c; simpl; try done;
      destruct (run P calls (Exhausted s)) as [rs final]; simpl in *;
      destruct IH as [-> IH]; (split; [done|]);
      intros r Hr; apply elem_of_cons in Hr as [Hr|Hr];
      try discriminate; try (by apply IH).
    by injection Hr as ->.
Qed.

(** C4: once [next] has returned false the iterator is [Exhausted]; any
    sequence of calls without [before_first] leaves it in that state, with
    its cursor untouched, and every [next] among them returns false;
    [before_first] is the call that takes it back to [Ready] at the
    rewound cursor. *)
Theorem exhausted_stays_exhausted st st' :
  next P st = (Ok false, st') →
  (∀ calls, CallBeforeFirst ∉ calls →
     (run P calls st').2 = st'
     ∧ ∀ r, Advanced r ∈ (run P calls st').1 → r = Ok false)
  ∧ next P st' = (Ok false, st')
  ∧ ∃ s, st' = Exhausted s
      ∧ before_first P st' = Ok (Ready (rewind P s) None).
Proof.
  intros Hnext. destruct (next_false_exhausted _ _ Hnext) as [s ->].
  split; [|split].
  - intros calls Hno. by apply run_exhausted.
  - reflexivity.
  - exists s. split; reflexivity.
Qed.

End StreamFacts.

Lemma exhausted_stays_exhausted_witness :
  StreamingIterator.next Examples.three_batches
    (StreamingIterator.Ready 3%nat (Some 12%nat))
  = (Ok false, StreamingIterator.Exhausted 3%nat)
  ∧ StreamingIterator.next Examples.three_batches
      (StreamingIterator.Exhausted 3%nat)
    = (Ok false, StreamingIterator.Exhausted 3%nat).
Proof.
  split; [reflexivity|].
  apply (exhausted_stays_exhausted Examples.three_batches
           (StreamingIterator.Ready 3%nat (Some 12%nat))
           (StreamingIterator.Exhausted 3%nat)).
  reflexivity.
Defined.

(** ** [DataBatch]: what reaches the consumer *)
Section PassThrough.
Import PrefetchingIterator.
Context {Batch Src : Type}.
Variable P : SI.source Batch Src.
Variable Good : Batch → Prop.
Hypothesis Hsrc : ∀ s b s', SI.fetch P s = Ok (Some (b, s')) → Good b.

Lemma next_holds st r st' :
  SI.holds_current Good st → SI.next P st = (r, st') →
  SI.holds_current Good st'.
Proof.
  destruct st as [|s cur|s]; simpl.
  - by intros _ [= <- <-].
  - destruct (SI.fetch P s) as [[[b s']|]|e] eqn:Hfetch;
      intros Hcur [= <- <-]; simpl; try done.
    by eapply Hsrc.
  - by intros _ [= <- <-].
Qed.

Lemma perform_holds c st :
  SI.holds_current Good st →
  SI.holds_reply Good (SI.perform P c st).1
  ∧ SI.holds_current Good (SI.perform P c st).2.
Proof.
  intros Hcur. destruct c as [config| | |]; simpl.
  - destruct st as [|s cur|s]; simpl; try done.
    destruct (SI.configure P config); simpl; done.
  - destruct st as [|s cur|s]; simpl; done.
  - destruct (SI.next P st) as [r st'] eqn:Hnext. simpl.
    split; [done|]. by eapply next_holds.
  - split; [|done]. destruct st as [|s [b|]|s]; simpl; done.
Qed.

Lemma run_holds calls st :
  SI.holds_current Good st →
  Forall (SI.holds_reply Good) (SI.run P calls st).1
  ∧ SI.holds_current Good (SI.run P calls st).2.
Proof.
  revert st. induction calls as [|c calls IH]; intros st Hcur; simpl.
  - by split.
  - destruct (perform_holds c st Hcur) as [Hr Hst].
    destruct (SI.perform P c st) as [r st']. simpl in *.
    destruct (IH st' Hst) as [Hrs Hfinal].
    destruct (SI.run P calls st') as [rs st'']. simpl in *.
    split; [by constructor | done].
Qed.

Lemma produce_holds w w' :
  holds_wrapper Good w → produce P w = Some w' → holds_wrapper Good w'.
Proof.
  intros (Hq & Hw & Hc). unfold produce, holds_wrapper.
  destruct (worker w) as [|it|] eqn:Hworker; [| |done].
  - destruct (inner w) as [|s cur|s] eqn:Hinner; simpl.
    + intros [= <-]. simpl. done.
    + destruct (SI.fetch P s) as [[[b s']|]|e] eqn:Hfetch; simpl;
        intros [= <-]; simpl; repeat split; try done.
      by eapply Hsrc.
    + intros [= <-]. simpl. done.
  - destruct (decide (length (queue w) < depth w)%nat); [|done].
    intros [= <-]. simpl. repeat split; try done.
    + apply Forall_app. split; [done|]. by constructor.
    + by destruct it.
Qed.

Local Ltac holds_now :=
  intros [= <- <-]; simpl in *; repeat split; try tauto; try done.

Lemma step_holds a w o w' :
  holds_wrapper Good w → step P a w = Some (o, w') →
  holds_outcome Good o ∧ holds_wrapper Good w'.
Proof.
  intros Hw. destruct a; simpl.
  - destruct (produce P w) as [w1|] eqn:Hprod; simpl; [|done].
    intros [= <- <-]. split; [done|]. by eapply produce_holds.
  - destruct Hw as (Hq & Hworker & Hc). unfold call_next, holds_wrapper.
    destruct (status w); [| holds_now | holds_now].
    destruct (captured w); [holds_now|].
    destruct (queue w) as [|[b|] q] eqn:Hqueue; [done| |];
      inversion Hq; subst; holds_now.
  - destruct Hw as (Hq & Hworker & Hc). unfold call_value, holds_wrapper.
    destruct (status w); [| holds_now | holds_now].
    destruct (captured w); [holds_now|].
    destruct (current w) as [b|] eqn:Hcur; intros [= <- <-]; simpl;
      rewrite Hcur; tauto.
  - destruct Hw as (Hq & Hworker & Hc).
    unfold call_before_first, holds_wrapper.
    destruct (status w), (captured w); try holds_now;
      destruct (SI.before_first P (inner w)); holds_now.
Qed.

Lemma exec_holds sched w obs w' :
  holds_wrapper Good w → exec P sched w = Some (obs, w') →
  Forall (holds_outcome Good) obs ∧ holds_wrapper Good w'.
Proof.
  revert w obs. induction sched as [|a sched IH]; intros w obs Hw; simpl.
  - intros [= <- <-]. by split.
  - destruct (step P a w) as [[o w1]|] eqn:Hstep; [|done].
    destruct (exec P sched w1) as [[os w2]|] eqn:Hrun; [|done].
    intros [= <- <-].
    destruct (step_holds _ _ _ _ Hw Hstep) as [Ho Hw1].
    destruct (IH _ _ Hw1 Hrun) as [Hos Hw2].
    split; [by constructor | done].
Qed.

End PassThrough.

Section DeliveredBatches.
Import PrefetchingIterator.
Context {Src : Type}.
Variable P : SI.source DataBatch Src.

(** C3, as amended: [DataBatch] checks nothing, and neither the iterator
    nor the prefetching wrapper builds or alters a batch: every batch that
    [value()] hands to a consumer is one that a read of the data source
    returned.  Hence when every batch that the source produces satisfies
    the batch invariant and fits the members of [DataBatch], so does every
    batch handed to a consumer. *)
Theorem delivered_batches_are_produced :
  (∀ calls b,
     SI.Current (Ok b) ∈ (SI.run P calls SI.Uninitialized).1 →
     SI.produced P b)
  ∧ (∀ lookahead st sched obs w b,
       exec P sched (start lookahead st) = Some (obs, w) →
       ValueIs b ∈ obs → SI.produced P b)
  ∧ ((∀ b, SI.produced P b → batch_invariant b ∧ representable b) →
     (∀ calls b,
        SI.Current (Ok b) ∈ (SI.run P calls SI.Uninitialized).1 →
        batch_invariant b ∧ representable b)
     ∧ (∀ lookahead st sched obs w b,
          exec P sched (start lookahead st) = Some (obs, w) →
          ValueIs b ∈ obs → batch_invariant b ∧ representable b)).
Proof.
  assert (Hsrc : ∀ s b s', SI.fetch P s = Ok (Some (b, s')) → SI.produced P b).
  { intros s b s' Hfetch. by exists s, s'. }
  assert (Hrun : ∀ calls b,
            SI.Current (Ok b) ∈ (SI.run P calls SI.Uninitialized).1 →
            SI.produced P b).
  { intros calls b Hin.
    destruct (run_holds P _ Hsrc calls SI.Uninitialized I) as [Hall _].
    exact (proj1 (Forall_forall _ _) Hall _ Hin). }
  assert (Hexec : ∀ lookahead st sched obs w b,
            exec P sched (start lookahead st) = Some (obs, w) →
            ValueIs b ∈ obs → SI.produced P b).
  { intros lookahead st sched obs w b Hex Hin.
    assert (Hstart : holds_wrapper (SI.produced P) (start lookahead st)).
    { repeat split. constructor. }
    destruct (exec_holds P _ Hsrc _ _ _ _ Hstart Hex) as [Hall _].
    exact (proj1 (Forall_forall _ _) Hall _ Hin). }
  split; [exact Hrun|]. split; [exact Hexec|].
  intros Hgood. split.
  - intros calls b Hin. apply Hgood. by eapply Hrun.
  - intros lookahead st sched obs w b Hex Hin. apply Hgood. by eapply Hexec.
Qed.

End DeliveredBatches.

Lemma tidy_source_produces b :
  StreamingIterator.produced Examples.tidy_source b →
  batch_invariant b ∧ representable b.
Proof.
  intros (s & s' & Hfetch). simpl in Hfetch.
  destruct s as [|s]; simpl in Hfetch; [|done].
  injection Hfetch as <- _. split.
  - split; [|split].
    + repeat constructor.
    + simpl. lia.
    + simpl. lia.
  - split.
    + vm_compute. split; congruence.
    + repeat constructor; vm_compute; congruence.
Defined.

Lemma delivered_batches_are_produced_witness :
  (StreamingIterator.run Examples.tidy_source
     [StreamingIterator.CallInit []; StreamingIterator.CallNext;
      StreamingIterator.CallValue] StreamingIterator.Uninitialized).1
  = [StreamingIterator.Initialised (Ok tt);
     StreamingIterator.Advanced (Ok true);
     StreamingIterator.Current (Ok Examples.tidy_batch)]
  ∧ batch_invariant Examples.tidy_batch
  ∧ representable Examples.tidy_batch.
Proof.
  split; [reflexivity|].
  destruct (delivered_batches_are_produced Examples.tidy_source)
    as (_ & _ & Hgood).
  destruct (Hgood tidy_source_produces) as [Hrun _].
  apply (Hrun [StreamingIterator.CallInit []; StreamingIterator.CallNext;
               StreamingIterator.CallValue]).
  simpl. do 2 apply list_elem_of_further. apply list_elem_of_here.
Defined.

(** A batch with pad count -1 fits the members of [DataBatch] and breaks
    the invariant; an iterator over [DataBatch] hands it to its consumer,
    and so do the streaming iterator and the prefetching wrapper over a
    source that produces it. *)
Lemma batch_invariant_counterexample :
  representable Examples.negative_pad_batch
  ∧ ¬ batch_invariant Examples.negative_pad_batch
  ∧ IIterator.Value unit (IIterator.vptr Examples.careless_iterator)
      (IIterator.self Examples.careless_iterator)
    = Ok Examples.negative_pad_batch
  ∧ (StreamingIterator.run Examples.careless_source
       [StreamingIterator.CallInit []; StreamingIterator.CallNext;
        StreamingIterator.CallValue] StreamingIterator.Uninitialized).1
    = [StreamingIterator.Initialised (Ok tt);
       StreamingIterator.Advanced (Ok true);
       StreamingIterator.Current (Ok Examples.negative_pad_batch)]
  ∧ fst <$> PrefetchingIterator.exec Examples.careless_source
              [PrefetchingIterator.Produce; PrefetchingIterator.Produce;
               PrefetchingIterator.CallNext; PrefetchingIterator.CallValue]
              (PrefetchingIterator.start 4
                 (StreamingIterator.Ready 0%nat None))
    = Some [PrefetchingIterator.Produced; PrefetchingIterator.Produced;
            PrefetchingIterator.NextIs true;
            PrefetchingIterator.ValueIs Examples.negative_pad_batch].
Proof.
  split; [|split; [|split; [|split]]]; try reflexivity.
  - split; [vm_compute; split; congruence | constructor].
  - intros (_ & Hpad & _). simpl in Hpad. lia.
Qed.

(** ** [PrefetchingIterator]: order of delivery *)
Section PrefetchOrder.
Import PrefetchingIterator.
Context {Batch Src : Type}.
Variable P : SI.source Batch Src.
Implicit Types (w : PrefetchingIterator.t Batch Src) (bs dl : list Batch).

Local Ltac list_eq := repeat rewrite <- ?app_assoc, <- ?app_comm_cons; simpl.

(** A move of the background loop keeps the bookkeeping and spends one
    credit. *)
Lemma produce_in_flight bs dl w credit w' :
  in_flight P bs dl w credit → produce P w = Some w' →
  captured w' = captured w ∧ depth w' = depth w
  ∧ ∃ c, credit = S c ∧ in_flight P bs dl w' c.
Proof.
  intros Hinv. unfold produce.
  destruct Hinv as [qs rest Hw Hs Hq Hy Hbs | b qs rest Hw Hs Hq Hy Hbs
                   | qs Hw Hs Hq Hbs | qs Hw Hs Hq Hbs | Hw Hs Hbs];
    rewrite Hw; try done.
  - inversion Hy as [st st' Hnext | st st' b rest' Hnext Hval Hy']; subst;
      rewrite Hnext; [|rewrite Hval]; intros [= <-]; simpl;
      (split; [done|]); (split; [done|]).
    + exists (1 + length qs)%nat. split; [simpl; lia|].
      apply flight_holding_end; simpl; try done.
      by rewrite app_nil_r.
    + exists (3 * length rest' + 4 + length qs)%nat. split; [simpl; lia|].
      by apply flight_holding with (b := b).
  - destruct (decide (length (queue w) < depth w)%nat); [|done].
    intros [= <-]; simpl. (split; [done|]); (split; [done|]).
    exists (3 * length rest + 2 + length (qs ++ [b]))%nat.
    split; [rewrite length_app; simpl; lia|].
    apply flight_running; simpl; try done.
    + rewrite Hq, fmap_app. done.
    + rewrite Hbs. list_eq. done.
  - destruct (decide (length (queue w) < depth w)%nat); [|done].
    intros [= <-]; simpl. (split; [done|]); (split; [done|]).
    exists (length qs). split; [lia|].
    apply flight_stopped; simpl; try done. by rewrite Hq.
Qed.

(** A move of the consumer's loop keeps the bookkeeping: it receives the
    next batch in order and spends one credit, or learns that the epoch has
    ended once everything has been delivered. *)
Lemma pull_in_flight bs dl w credit o w' :
  in_flight P bs dl w credit → captured w = None →
  pull w = Some (o, w') →
  captured w' = None ∧ depth w' = depth w
  ∧ match o with
    | ValueIs b => ∃ c, credit = S c ∧ in_flight P bs (dl ++ [b]) w' c
    | NextIs false => dl = bs ∧ in_flight P bs dl w' 0
    | _ => False
    end.
Proof.
  intros Hinv Hcap. unfold pull, call_next.
  destruct Hinv as [qs rest Hw Hs Hq Hy Hbs | b qs rest Hw Hs Hq Hy Hbs
                   | qs Hw Hs Hq Hbs | qs Hw Hs Hq Hbs | Hw Hs Hbs];
    rewrite Hs, ?Hcap, ?Hq.
  1-3: destruct qs as [|b0 qs]; simpl; [done|];
       unfold call_value; simpl; rewrite Hs, Hcap;
       intros [= <- <-]; simpl; (split; [done|]); (split; [done|]).
  - exists (3 * length rest + 2 + length qs)%nat. split; [lia|].
    apply flight_running; simpl; try done. rewrite Hbs. list_eq. done.
  - exists (3 * length rest + 4 + length qs)%nat. split; [lia|].
    apply flight_holding with (b := b); simpl; try done.
    rewrite Hbs. list_eq. done.
  - exists (1 + length qs)%nat. split; [lia|].
    apply flight_holding_end; simpl; try done. rewrite Hbs. list_eq. done.
  - destruct qs as [|b0 qs]; simpl.
    + intros [= <- <-]; simpl. (split; [done|]); (split; [done|]).
      rewrite app_nil_r in Hbs. split; [done|].
      by apply flight_done.
    + unfold call_value; simpl; rewrite Hs, Hcap.
      intros [= <- <-]; simpl; (split; [done|]); (split; [done|]).
      exists (length qs). split; [lia|].
      apply flight_stopped; simpl; try done. rewrite Hbs. list_eq. done.
  - intros [= <- <-]. (split; [done|]); (split; [done|]).
    split; [done|]. by apply flight_done.
Qed.

Lemma in_flight_prefix bs dl w credit :
  in_flight P bs dl w credit → dl `prefix_of` bs.
Proof.
  destruct 1 as [qs rest _ _ _ _ -> | b qs rest _ _ _ _ ->
                | qs _ _ _ -> | qs _ _ _ -> | _ _ ->];
    try (eexists; reflexivity).
  exists []. by rewrite app_nil_r.
Qed.

Lemma tick_step_in_flight bs dl w credit tk o w' :
  in_flight P bs dl w credit → captured w = None →
  tick_step P tk w = Some (o, w') →
  captured w' = None ∧ depth w' = depth w
  ∧ match o with
    | Produced => ∃ c, credit = S c ∧ in_flight P bs dl w' c
    | ValueIs b => ∃ c, credit = S c ∧ in_flight P bs (dl ++ [b]) w' c
    | NextIs false => dl = bs ∧ in_flight P bs dl w' 0
    | _ => False
    end.
Proof.
  intros Hinv Hcap. destruct tk; simpl.
  - destruct (produce P w) as [w1|] eqn:Hprod; simpl; [|done].
    intros [= <- <-].
    destruct (produce_in_flight _ _ _ _ _ Hinv Hprod) as (Hc & Hd & Hrest).
    split; [congruence|]. split; done.
  - intros Hpull.
    destruct (pull_in_flight _ _ _ _ _ _ Hinv Hcap Hpull) as (Hc & Hd & Ho).
    split; [done|]. split; [done|].
    destruct o as [| [|] | b | e | |]; done.
Qed.

Lemma interleave_in_flight bs ticks :
  ∀ dl w credit obs w',
    in_flight P bs dl w credit → captured w = None →
    interleave P ticks w = Some (obs, w') →
    captured w' = None ∧ depth w' = depth w ∧ rethrown obs = []
    ∧ (∃ credit', in_flight P bs (dl ++ delivered obs) w' credit'
         ∧ (¬ saw_end obs → (length ticks + credit' = credit)%nat))
    ∧ (saw_end obs → dl ++ delivered obs = bs).
Proof.
  unfold saw_end.
  induction ticks as [|tk ticks IH]; intros dl w credit obs w' Hinv Hcap; simpl.
  - intros [= <- <-]. simpl. rewrite app_nil_r.
    repeat split; try done.
    + exists credit. split; [done | lia].
    + intros Hend. by apply elem_of_nil in Hend.
  - destruct (tick_step P tk w) as [[o w1]|] eqn:Hstep; [|done].
    destruct (interleave P ticks w1) as [[os w2]|] eqn:Hrun; [|done].
    intros [= <- <-].
    destruct (tick_step_in_flight _ _ _ _ _ _ _ Hinv Hcap Hstep)
      as (Hcap1 & Hd1 & Ho).
    destruct o as [| [|] | b | e | |]; try done.
    + destruct Ho as (c & -> & Hinv1).
      destruct (IH _ _ _ _ _ Hinv1 Hcap1 Hrun)
        as (Hc2 & Hd2 & Hre & (c' & Hinv2 & Hlen) & Hend).
      split; [done|]. split; [congruence|]. split; [done|]. split.
      * exists c'. split; [done|]. intros Hno.
        rewrite <- Hlen; [lia|]. intros Hin. apply Hno. by right.
      * intros Hin. apply Hend.
        apply elem_of_cons in Hin as [Hin|Hin]; [done | exact Hin].
    + destruct Ho as [-> Hinv1].
      destruct (IH _ _ _ _ _ Hinv1 Hcap1 Hrun)
        as (Hc2 & Hd2 & Hre & (c' & Hinv2 & Hlen) & Hend).
      split; [done|]. split; [congruence|]. split; [done|]. split.
      * exists c'. split; [done|]. intros Hno. exfalso. apply Hno. by left.
      * intros _. change (delivered (NextIs false :: os)) with (delivered os).
        destruct (in_flight_prefix _ _ _ _ Hinv2) as [k Hk].
        rewrite <- app_assoc in Hk.
        rewrite <- (app_nil_r bs) in Hk at 1.
        apply app_inv_head in Hk. symmetry in Hk.
        apply app_eq_nil in Hk as [-> _]. by rewrite app_nil_r.
    + destruct Ho as (c & -> & Hinv1).
      destruct (IH _ _ _ _ _ Hinv1 Hcap1 Hrun)
        as (Hc2 & Hd2 & Hre & (c' & Hinv2 & Hlen) & Hend).
      change (delivered (ValueIs b :: os)) with (b :: delivered os).
      rewrite <- app_assoc in Hinv2, Hend. simpl in Hinv2, Hend.
      split; [done|]. split; [congruence|]. split; [done|]. split.
      * exists c'. split; [done|]. intros Hno.
        rewrite <- Hlen; [lia|]. intros Hin. apply Hno. by right.
      * intros Hin. apply Hend.
        apply elem_of_cons in Hin as [Hin|Hin]; [done | exact Hin].
Qed.

(** With a lookahead of at least one, some move is always enabled. *)
Lemma in_flight_progress bs dl w credit :
  in_flight P bs dl w credit → captured w = None → (1 ≤ depth w)%nat →
  ∃ tk, is_Some (tick_step P tk w).
Proof.
  intros Hinv Hcap Hdepth.
  destruct Hinv as [qs rest Hw Hs Hq Hy Hbs | b qs rest Hw Hs Hq Hy Hbs
                   | qs Hw Hs Hq Hbs | qs Hw Hs Hq Hbs | Hw Hs Hbs].
  - exists Producer. simpl. unfold produce. rewrite Hw.
    inversion Hy as [st st' Hnext | st st' b rest' Hnext Hval Hy']; subst;
      rewrite Hnext; [|rewrite Hval]; simpl; eauto.
  - destruct (decide (length (queue w) < depth w)%nat) as [Hroom|Hfull].
    + exists Producer. simpl. unfold produce. rewrite Hw.
      rewrite decide_True by done. simpl. eauto.
    + exists Consumer. simpl. unfold pull, call_next.
      rewrite Hs, Hcap. destruct qs as [|b0 qs].
      * rewrite Hq in Hfull. simpl in Hfull. lia.
      * rewrite Hq. simpl. eauto.
  - destruct (decide (length (queue w) < depth w)%nat) as [Hroom|Hfull].
    + exists Producer. simpl. unfold produce. rewrite Hw.
      rewrite decide_True by done. simpl. eauto.
    + exists Consumer. simpl. unfold pull, call_next.
      rewrite Hs, Hcap. destruct qs as [|b0 qs].
      * rewrite Hq in Hfull. simpl in Hfull. lia.
      * rewrite Hq. simpl. eauto.
  - exists Consumer. simpl. unfold pull, call_next.
    rewrite Hs, Hcap, Hq. destruct qs as [|b0 qs]; simpl; eauto.
  - exists Consumer. simpl. unfold pull, call_next. rewrite Hs. eauto.
Qed.

(** Hence the epoch can always be carried to its end. *)
Lemma in_flight_completes credit :
  ∀ bs dl w,
    in_flight P bs dl w credit → captured w = None → (1 ≤ depth w)%nat →
    ∃ ticks obs w',
      interleave P ticks w = Some (obs, w') ∧ saw_end obs
      ∧ dl ++ delivered obs = bs.
Proof.
  induction credit as [credit IH] using lt_wf_ind.
  intros bs dl w Hinv Hcap Hdepth.
  destruct (in_flight_progress _ _ _ _ Hinv Hcap Hdepth) as [tk [[o w1] Hstep]].
  destruct (tick_step_in_flight _ _ _ _ _ _ _ Hinv Hcap Hstep)
    as (Hcap1 & Hd1 & Ho).
  destruct o as [| [|] | b | e | |]; try done.
  - destruct Ho as (c & -> & Hinv1).
    destruct (IH c (Nat.lt_succ_diag_r c) _ _ _ Hinv1 Hcap1)
      as (ticks & obs & w' & Hrun & Hend & Hdl); [lia|].
    exists (tk :: ticks), (Produced :: obs), w'. simpl.
    rewrite Hstep, Hrun. split; [done|]. split; [|done].
    unfold saw_end. by right.
  - destruct Ho as [-> Hinv1].
    exists [tk], [NextIs false], w1. simpl. rewrite Hstep.
    split; [done|]. split; [unfold saw_end; by left | by rewrite app_nil_r].
  - destruct Ho as (c & -> & Hinv1).
    destruct (IH c (Nat.lt_succ_diag_r c) _ _ _ Hinv1 Hcap1)
      as (ticks & obs & w' & Hrun & Hend & Hdl); [lia|].
    exists (tk :: ticks), (ValueIs b :: obs), w'. simpl.
    rewrite Hstep, Hrun. split; [done|]. split.
    + unfold saw_end. by right.
    + rewrite <- Hdl, <- app_assoc. done.
Qed.

(** Let the inner iterator yield the finite sequence [bs].  In every
    interleaving of the background loop with the consumer's loop, whatever
    the lookahead, the batches received through [value()] are a prefix of
    [bs] in the same order and no error is raised; once the consumer has
    been told that the epoch ended it has received exactly [bs]; before
    that the interleaving has at most [3 * length bs + 2] moves; with a
    lookahead of at least one a move is always enabled and the epoch can
    be carried to its end. *)
Theorem prefetch_preserves_order (lookahead : nat) st bs :
  SI.yields P st bs →
  (∀ ticks obs w,
     interleave P ticks (start lookahead st) = Some (obs, w) →
     delivered obs `prefix_of` bs
     ∧ rethrown obs = []
     ∧ (saw_end obs → delivered obs = bs)
     ∧ (¬ saw_end obs → (length ticks ≤ 3 * length bs + 2)%nat)
     ∧ ((1 ≤ lookahead)%nat → ∃ tk, is_Some (tick_step P tk w)))
  ∧ ((1 ≤ lookahead)%nat →
     ∃ ticks obs w,
       interleave P ticks (start lookahead st) = Some (obs, w)
       ∧ saw_end obs ∧ delivered obs = bs).
Proof.
  intros Hy.
  assert (Hinit : in_flight P bs [] (start lookahead st)
                    (3 * length bs + 2 + length ([] : list Batch))).
  { by apply flight_running. }
  split.
  - intros ticks obs w Hrun.
    destruct (interleave_in_flight _ _ _ _ _ _ _ Hinit eq_refl Hrun)
      as (Hcap & Hd & Hre & (c & Hinv & Hlen) & Hend).
    simpl in *. split; [by eapply in_flight_prefix|].
    split; [done|]. split; [done|]. split.
    + intros Hno. specialize (Hlen Hno). lia.
    + intros Hdepth. eapply in_flight_progress; [exact Hinv | done |].
      rewrite Hd. exact Hdepth.
  - intros Hdepth.
    destruct (in_flight_completes _ _ _ _ Hinit eq_refl Hdepth)
      as (ticks & obs & w & Hrun & Hend & Hdl).
    by exists ticks, obs, w.
Qed.

End PrefetchOrder.

Lemma three_batches_yields :
  StreamingIterator.yields Examples.three_batches
    (StreamingIterator.Ready 0%nat None) [10; 11; 12]%nat.
Proof.
  eapply StreamingIterator.yields_more; [reflexivity | reflexivity |].
  eapply StreamingIterator.yields_more; [reflexivity | reflexivity |].
  eapply StreamingIterator.yields_more; [reflexivity | reflexivity |].
  eapply StreamingIterator.yields_end. reflexivity.
Defined.

Lemma prefetch_preserves_order_witness :
  StreamingIterator.yields Examples.three_batches
    (StreamingIterator.Ready 0%nat None) [10; 11; 12]%nat
  ∧ (1 ≤ 4)%nat
  ∧ ∃ ticks obs w,
      PrefetchingIterator.interleave Examples.three_batches ticks
        (PrefetchingIterator.start 4 (StreamingIterator.Ready 0%nat None))
      = Some (obs, w)
      ∧ PrefetchingIterator.saw_end obs
      ∧ PrefetchingIterator.delivered obs = [10; 11; 12]%nat.
Proof.
  split; [exact three_batches_yields|]. split; [lia|].
  apply (prefetch_preserves_order Examples.three_batches 4
           (StreamingIterator.Ready 0%nat None) [10; 11; 12]%nat
           three_batches_yields).
  lia.
Defined.

(** ** [PrefetchingIterator]: the wrapper against the inner iterator *)
Section PrefetchEquivalence.
Import PrefetchingIterator.
Context {Batch Src : Type}.
Variable P : SI.source Batch Src.
Variable r : Src.
Hypothesis Hstable :
  ∀ s b s', SI.fetch P s = Ok (Some (b, s')) → SI.rewind P s' = SI.rewind P s.
Hypothesis Hr_finite : SI.finite_epoch P r.
Hypothesis Hr_fixed : SI.rewind P r = r.
Implicit Types (w : PrefetchingIterator.t Batch Src).

Lemma yields_forget s cur cur' bs :
  SI.yields P (SI.Ready s cur) bs → SI.yields P (SI.Ready s cur') bs.
Proof.
  inversion 1 as [st st' Hnext | st st' b bs' Hnext Hval Hrest]; subst;
    simpl in Hnext; destruct (SI.fetch P s) as [[[b0 s0]|]|e] eqn:Hfetch;
    try discriminate; injection Hnext as <-.
  - eapply SI.yields_end. simpl. by rewrite Hfetch.
  - eapply SI.yields_more; [simpl; by rewrite Hfetch | exact Hval | exact Hrest].
Qed.

Lemma finite_epoch_fetch s :
  SI.finite_epoch P s →
  SI.fetch P s = Ok None
  ∨ ∃ b s', SI.fetch P s = Ok (Some (b, s')) ∧ SI.finite_epoch P s'.
Proof.
  intros [bs Hy].
  inversion Hy as [st st' Hnext | st st' b bs' Hnext Hval Hrest]; subst;
    simpl in Hnext; destruct (SI.fetch P s) as [[[b0 s0]|]|e] eqn:Hfetch;
    try discriminate; injection Hnext as <-.
  - by left.
  - right. exists b0, s0. split; [done|]. exists bs'.
    by eapply yields_forget.
Qed.

Lemma fetched_snoc s bs s1 b s2 :
  SI.fetched P s bs s1 → SI.fetch P s1 = Ok (Some (b, s2)) →
  SI.fetched P s (bs ++ [b]) s2.
Proof.
  induction 1 as [s | s b0 s0 bs s1 Hfetch _ IH]; intros Hlast; simpl.
  - eapply SI.fetched_cons; [exact Hlast | constructor].
  - eapply SI.fetched_cons; [exact Hfetch | by apply IH].
Qed.

Lemma fetched_cons_inv s b bs s' :
  SI.fetched P s (b :: bs) s' →
  ∃ s1, SI.fetch P s = Ok (Some (b, s1)) ∧ SI.fetched P s1 bs s'.
Proof. inversion 1; eauto. Qed.

Lemma fetched_nil_inv s s' : SI.fetched P s [] s' → s' = s.
Proof. by inversion 1. Qed.

Lemma fetched_rewind s bs s' :
  SI.fetched P s bs s' → SI.rewind P s' = SI.rewind P s.
Proof.
  induction 1 as [s | s b0 s0 bs s1 Hfetch _ IH]; [done|].
  rewrite IH. by eapply Hstable.
Qed.

Local Ltac as_running s p si ci :=
  match goal with
  | |- mirrors _ _ ?w' _ => apply (mirrors_running P r w' s p si ci)
  end.
Local Ltac as_holding s qs b si ci :=
  match goal with
  | |- mirrors _ _ ?w' _ => apply (mirrors_holding P r w' s qs b si ci)
  end.
Local Ltac as_holding_end s p si :=
  match goal with
  | |- mirrors _ _ ?w' _ => apply (mirrors_holding_end P r w' s p si)
  end.
Local Ltac as_stopped s p si :=
  match goal with
  | |- mirrors _ _ ?w' _ => apply (mirrors_stopped P r w' s p si)
  end.

(** A move of the background loop is invisible to the consumer. *)
Lemma produce_mirrors w ref w' :
  mirrors P r w ref → produce P w = Some w' →
  depth w' = depth w ∧ mirrors P r w' ref.
Proof.
  intros Hm. unfold produce.
  destruct Hm as [s pending s_in cur_in Hs Hc Hw Hq Hin Hf Hfin Hrew
                 | s qs b s_in cur_in Hs Hc Hw Hq Hin Hf Hfin Hrew
                 | s pending s_in Hs Hc Hw Hq Hin Hf Hend Hrew
                 | s pending s_in Hs Hc Hw Hq Hin Hf Hend Hrew
                 | s Hs Hc Hw Hin Hrew];
    rewrite Hw; try done.
  - rewrite Hin. simpl.
    destruct (finite_epoch_fetch _ Hfin) as [Hnone | (b & s' & Hsome & Hfin')].
    + rewrite Hnone. intros [= <-]. split; [done|].
      by as_holding_end s pending s_in.
    + rewrite Hsome. simpl. intros [= <-]. split; [done|].
      as_holding s pending b s' (Some b); try done.
      by eapply fetched_snoc.
  - destruct (decide (length (queue w) < depth w)%nat); [|done].
    intros [= <-]. split; [done|].
    as_running s (qs ++ [b]) s_in cur_in; try done.
    simpl. by rewrite Hq, fmap_app.
  - destruct (decide (length (queue w) < depth w)%nat); [|done].
    intros [= <-]. split; [done|].
    as_stopped s pending s_in; try done.
    simpl. by rewrite Hq.
Qed.

(** A call of the consumer is answered as the inner iterator answers it. *)
Lemma call_next_mirrors w ref o w' :
  mirrors P r w ref → call_next w = Some (o, w') →
  depth w' = depth w
  ∧ o = as_outcome (SI.Advanced (SI.next P ref).1)
  ∧ mirrors P r w' (SI.next P ref).2.
Proof.
  intros Hm. unfold call_next.
  destruct Hm as [s pending s_in cur_in Hs Hc Hw Hq Hin Hf Hfin Hrew
                 | s qs b s_in cur_in Hs Hc Hw Hq Hin Hf Hfin Hrew
                 | s pending s_in Hs Hc Hw Hq Hin Hf Hend Hrew
                 | s pending s_in Hs Hc Hw Hq Hin Hf Hend Hrew
                 | s Hs Hc Hw Hin Hrew];
    rewrite Hs, ?Hc, ?Hq.
  - destruct pending as [|b0 rest]; simpl; [done|].
    destruct (fetched_cons_inv _ _ _ _ Hf) as (s1 & Hfetch & Hrest).
    rewrite Hfetch. intros [= <- <-]. simpl. split; [done|]. split; [done|].
    as_running s1 rest s_in cur_in; try done.
    rewrite <- Hrew. by eapply Hstable.
  - destruct qs as [|b0 rest]; simpl; [done|].
    destruct (fetched_cons_inv _ _ _ _ Hf) as (s1 & Hfetch & Hrest).
    rewrite Hfetch. intros [= <- <-]. simpl. split; [done|]. split; [done|].
    as_holding s1 rest b s_in cur_in; try done.
    rewrite <- Hrew. by eapply Hstable.
  - destruct pending as [|b0 rest]; simpl; [done|].
    destruct (fetched_cons_inv _ _ _ _ Hf) as (s1 & Hfetch & Hrest).
    rewrite Hfetch. intros [= <- <-]. simpl. split; [done|]. split; [done|].
    as_holding_end s1 rest s_in; try done.
    rewrite <- Hrew. by eapply Hstable.
  - destruct pending as [|b0 rest]; simpl.
    + rewrite (fetched_nil_inv _ _ Hf) in Hend, Hin. rewrite Hend.
      intros [= <- <-]. simpl. split; [done|]. split; [done|].
      by apply mirrors_done.
    + destruct (fetched_cons_inv _ _ _ _ Hf) as (s1 & Hfetch & Hrest).
      rewrite Hfetch. intros [= <- <-]. simpl.
      split; [done|]. split; [done|].
      as_stopped s1 rest s_in; try done.
      rewrite <- Hrew. by eapply Hstable.
  - intros [= <- <-]. simpl. split; [done|]. split; [done|].
    by apply mirrors_done.
Qed.

Lemma call_value_mirrors w ref :
  mirrors P r w ref →
  (call_value w).1 = as_outcome (SI.Current (SI.value ref))
  ∧ (call_value w).2 = w.
Proof.
  intros Hm. unfold call_value.
  destruct Hm as [s pending s_in cur_in Hs Hc Hw Hq Hin Hf Hfin Hrew
                 | s qs b s_in cur_in Hs Hc Hw Hq Hin Hf Hfin Hrew
                 | s pending s_in Hs Hc Hw Hq Hin Hf Hend Hrew
                 | s pending s_in Hs Hc Hw Hq Hin Hf Hend Hrew
                 | s Hs Hc Hw Hin Hrew];
    rewrite Hs, ?Hc; simpl; try done;
    by destruct (current w).
Qed.

Lemma call_before_first_mirrors w ref :
  mirrors P r w ref →
  depth (call_before_first P w).2 = depth w
  ∧ (call_before_first P w).1
    = as_outcome (SI.Repositioned (SI.keep (SI.before_first P ref) ref).1)
  ∧ mirrors P r (call_before_first P w).2
      (SI.keep (SI.before_first P ref) ref).2.
Proof.
  intros Hm. unfold call_before_first.
  assert (Hfresh : ∀ lookahead cur,
            mirrors P r (start lookahead (SI.Ready r cur)) (SI.Ready r None)).
  { intros lookahead cur.
    by apply (mirrors_running P r (start lookahead (SI.Ready r cur))
                r [] r cur); try constructor. }
  destruct Hm as [s pending s_in cur_in Hs Hc Hw Hq Hin Hf Hfin Hrew
                 | s qs b s_in cur_in Hs Hc Hw Hq Hin Hf Hfin Hrew
                 | s pending s_in Hs Hc Hw Hq Hin Hf Hend Hrew
                 | s pending s_in Hs Hc Hw Hq Hin Hf Hend Hrew
                 | s Hs Hc Hw Hin Hrew];
    rewrite Hs, Hc, Hin; simpl;
    try (rewrite (fetched_rewind _ _ _ Hf)); rewrite Hrew;
    (split; [done|]); (split; [done|]); apply Hfresh.
Qed.

Lemma step_mirrors a w ref o w' :
  mirrors P r w ref → step P a w = Some (o, w') →
  depth w' = depth w
  ∧ match call_of a with
    | None => o = Produced ∧ mirrors P r w' ref
    | Some c =>
        o = as_outcome (SI.perform P c ref).1
        ∧ mirrors P r w' (SI.perform P c ref).2
    end.
Proof.
  intros Hm. destruct a; simpl.
  - destruct (produce P w) as [w1|] eqn:Hprod; simpl; [|done].
    intros [= <- <-].
    destruct (produce_mirrors _ _ _ Hm Hprod) as [Hd Hm1]. by repeat split.
  - intros Hnext.
    destruct (call_next_mirrors _ _ _ _ Hm Hnext) as (Hd & Ho & Hm1).
    destruct (SI.next P ref) as [rep ref']. by repeat split.
  - intros [= Hstep].
    destruct (call_value_mirrors _ _ Hm) as [Ho Hw].
    rewrite Hstep in Ho, Hw. simpl in *. subst w'. by repeat split.
  - intros [= Hstep].
    destruct (call_before_first_mirrors _ _ Hm) as (Hd & Ho & Hm1).
    rewrite Hstep in Hd, Ho, Hm1. simpl in *.
    destruct (SI.keep (SI.before_first P ref) ref) as [rep ref'].
    by repeat split.
Qed.

Lemma visible_as_outcome (rep : SI.reply Batch) os :
  visible (as_outcome rep :: os) = as_outcome rep :: visible os.
Proof. by destruct rep as [[|]|[|]|[|]|[|]]. Qed.

Lemma exec_mirrors sched :
  ∀ w ref obs w',
    mirrors P r w ref → exec P sched w = Some (obs, w') →
    depth w' = depth w
    ∧ visible obs = as_outcome <$> (SI.run P (calls_of sched) ref).1
    ∧ mirrors P r w' (SI.run P (calls_of sched) ref).2.
Proof.
  induction sched as [|a sched IH]; intros w ref obs w' Hm; simpl.
  - intros [= <- <-]. by repeat split.
  - destruct (step P a w) as [[o w1]|] eqn:Hstep; [|done].
    destruct (exec P sched w1) as [[os w2]|] eqn:Hrun; [|done].
    intros [= <- <-].
    destruct (step_mirrors _ _ _ _ _ Hm Hstep) as [Hd Ha].
    unfold calls_of. csimpl. fold (calls_of sched).
    destruct (call_of a) as [c|]; simpl.
    + destruct (SI.perform P c ref) as [rep ref'] eqn:Hperform.
      simpl in Ha. destruct Ha as [-> Hm1].
      destruct (IH _ _ _ _ Hm1 Hrun) as (Hd2 & Hobs & Hm2).
      destruct (SI.run P (calls_of sched) ref') as [rs ref''].
      simpl in *. split; [congruence|]. split; [|done].
      destruct rep as [[|]|[|]|[|]|[|]]; simpl; by rewrite Hobs.
    + destruct Ha as [-> Hm1].
      destruct (IH _ _ _ _ Hm1 Hrun) as (Hd2 & Hobs & Hm2).
      split; [congruence|]. by split.
Qed.

Lemma exec_app sched1 sched2 w :
  exec P (sched1 ++ sched2) w
  = match exec P sched1 w with
    | Some (obs1, w1) =>
        match exec P sched2 w1 with
        | Some (obs2, w2) => Some (obs1 ++ obs2, w2)
        | None => None
        end
    | None => None
    end.
Proof.
  revert w. induction sched1 as [|a sched1 IH]; intros w; simpl.
  - by destruct (exec P sched2 w) as [[obs2 w2]|].
  - destruct (step P a w) as [[o w1]|]; [|done]. rewrite IH.
    destruct (exec P sched1 w1) as [[obs1 w1']|]; [|done].
    by destruct (exec P sched2 w1') as [[obs2 w2]|].
Qed.

Lemma calls_of_produce k sched :
  calls_of (replicate k Produce ++ sched) = calls_of sched.
Proof. induction k as [|k IH]; [done|]. exact IH. Qed.

Lemma exec_after_produce k a w w1 :
  produce P w = Some w1 →
  is_Some (exec P (replicate k Produce ++ [a]) w1) →
  is_Some (exec P (replicate (S k) Produce ++ [a]) w).
Proof.
  intros Hprod [[obs w2] Hrun]. simpl. rewrite Hprod. simpl.
  rewrite Hrun. eauto.
Qed.

Lemma exec_single a w :
  is_Some (step P a w) → is_Some (exec P (replicate 0 Produce ++ [a]) w).
Proof. intros [[o w'] Hstep]. simpl. rewrite Hstep. eauto. Qed.

Lemma call_next_ready w it q :
  status w = Ready → captured w = None → queue w = it :: q →
  is_Some (step P CallNext w).
Proof.
  intros Hs Hc Hq. simpl. unfold call_next. rewrite Hs, Hc, Hq.
  destruct it; eauto.
Qed.

(** With a lookahead of at least one, every call of the consumer returns
    after at most two moves of the background loop. *)
Lemma call_enabled w ref a :
  mirrors P r w ref → (1 ≤ depth w)%nat → a ≠ Produce →
  ∃ k, (k ≤ 2)%nat ∧ is_Some (exec P (replicate k Produce ++ [a]) w).
Proof.
  intros Hm Hdepth Ha.
  destruct a; [done| |exists 0%nat|exists 0%nat];
    try (split; [lia|]; apply exec_single; simpl; eauto).
  destruct Hm as [s pending s_in cur_in Hs Hc Hw Hq Hin Hf Hfin Hrew
                 | s qs b s_in cur_in Hs Hc Hw Hq Hin Hf Hfin Hrew
                 | s pending s_in Hs Hc Hw Hq Hin Hf Hend Hrew
                 | s pending s_in Hs Hc Hw Hq Hin Hf Hend Hrew
                 | s Hs Hc Hw Hin Hrew].
  - destruct pending as [|b0 rest].
    + exists 2%nat. split; [lia|].
      assert (Hheld : ∃ it st, produce P w = Some (hold it st w)).
      { unfold produce. rewrite Hw, Hin. simpl.
        destruct (finite_epoch_fetch _ Hfin)
          as [Hnone | (b & s' & Hsome & _)].
        - rewrite Hnone. eauto.
        - rewrite Hsome. simpl. eauto. }
      destruct Hheld as (it & st & Hprod).
      eapply exec_after_produce; [exact Hprod|].
      eapply (exec_after_produce 0 _ _ (push it (hold it st w))).
      * unfold produce. simpl. rewrite Hq. simpl.
        rewrite decide_True by lia. done.
      * apply exec_single. eapply call_next_ready; simpl; try done;
          by rewrite Hq.
    + exists 0%nat. split; [lia|]. apply exec_single.
      eapply call_next_ready; try done; by rewrite Hq.
  - destruct qs as [|b0 rest].
    + exists 1%nat. split; [lia|].
      eapply (exec_after_produce 0 _ _ (push (QBatch b) w)).
      * unfold produce. rewrite Hw, Hq. simpl.
        rewrite decide_True by lia. done.
      * apply exec_single. eapply call_next_ready; simpl; try done;
          by rewrite Hq.
    + exists 0%nat. split; [lia|]. apply exec_single.
      eapply call_next_ready; try done; by rewrite Hq.
  - destruct pending as [|b0 rest].
    + exists 1%nat. split; [lia|].
      eapply (exec_after_produce 0 _ _ (push QEnd w)).
      * unfold produce. rewrite Hw, Hq. simpl.
        rewrite decide_True by lia. done.
      * apply exec_single. eapply call_next_ready; simpl; try done;
          by rewrite Hq.
    + exists 0%nat. split; [lia|]. apply exec_single.
      eapply call_next_ready; try done; by rewrite Hq.
  - exists 0%nat. split; [lia|]. apply exec_single.
    destruct pending as [|b0 rest];
      eapply call_next_ready; try done; by rewrite Hq.
  - exists 0%nat. split; [lia|]. apply exec_single.
    simpl. unfold call_next. rewrite Hs. eauto.
Qed.

(** Hence every sequence of calls can be carried out. *)
Lemma calls_enabled acts :
  ∀ w ref,
    mirrors P r w ref → (1 ≤ depth w)%nat → (Produce ∉ acts) →
    ∃ sched obs w',
      exec P sched w = Some (obs, w')
      ∧ calls_of sched = calls_of acts
      ∧ (length sched ≤ 3 * length acts)%nat.
Proof.
  induction acts as [|a acts IH]; intros w ref Hm Hdepth Hno.
  - exists [], [], w. simpl. repeat split; try done; lia.
  - apply not_elem_of_cons in Hno as [Ha Hno].
    destruct (call_enabled _ _ a Hm Hdepth) as (k & Hk & [[obs1 w1] Hrun1]);
      [congruence|].
    destruct (exec_mirrors _ _ _ _ _ Hm Hrun1) as (Hd1 & _ & Hm1).
    destruct (IH _ _ Hm1) as (sched & obs & w' & Hrun & Hcalls & Hlen);
      [lia | done |].
    exists ((replicate k Produce ++ [a]) ++ sched), (obs1 ++ obs), w'.
    split; [|split].
    + by rewrite exec_app, Hrun1, Hrun.
    + unfold calls_of in *. rewrite omap_app. fold (calls_of sched).
      change (omap call_of (replicate k Produce ++ [a]))
        with (calls_of (replicate k Produce ++ [a])).
      rewrite calls_of_produce. unfold calls_of. simpl.
      destruct a; [done| | |]; simpl; by rewrite Hcalls.
    + rewrite !length_app, length_replicate. simpl. lia.
Qed.

End PrefetchEquivalence.

Section PrefetchObservation.
Import PrefetchingIterator.
Context {Batch Src : Type}.
Variable P : SI.source Batch Src.


(** With lookahead 0 the background loop can never push: the queue stays
    empty and nothing is ever delivered. *)
Lemma zero_lookahead_delivers_nothing sched :
  ∀ w obs w',
    depth w = 0%nat → queue w = [] → current w = None →
    exec P sched w = Some (obs, w') → delivered obs = [].
Proof.
  induction sched as [|a sched IH]; intros w obs w' Hd Hq Hc; simpl.
  - by intros [= <- <-].
  - destruct (step P a w) as [[o w1]|] eqn:Hstep; [|done].
    destruct (exec P sched w1) as [[os w2]|] eqn:Hrun; [|done].
    intros [= <- <-].
    assert (Hkeep : depth w1 = 0%nat ∧ queue w1 = [] ∧ current w1 = None
                    ∧ delivered [o] = []).
    { destruct a; simpl in Hstep.
      - unfold produce in Hstep.
        destruct (worker w) as [|it|].
        + destruct (SI.next P (inner w)) as [[[|]|e] st];
            [destruct (SI.value st)| |]; injection Hstep as <- <-; done.
        + rewrite decide_False in Hstep by lia. done.
        + done.
      - unfold call_next in Hstep. rewrite Hq in Hstep.
        destruct (status w), (captured w);
          try discriminate; injection Hstep as <- <-; done.
      - unfold call_value in Hstep. rewrite Hc in Hstep.
        destruct (status w), (captured w); injection Hstep as <- <-; done.
      - unfold call_before_first in Hstep.
        destruct (status w), (captured w);
          try (injection Hstep as <- <-; done);
          destruct (SI.before_first P (inner w));
          injection Hstep as <- <-; done. }
    destruct Hkeep as (Hd1 & Hq1 & Hc1 & Ho).
    change (delivered (o :: os)) with (delivered ([o] ++ os)).
    unfold delivered in *. rewrite omap_app, Ho. simpl.
    by eapply IH.
Qed.

End PrefetchObservation.

Lemma three_batches_finite pos :
  StreamingIterator.finite_epoch Examples.three_batches pos.
Proof.
  unfold StreamingIterator.finite_epoch.
  destruct pos as [|[|[|pos]]].
  - exists [10; 11; 12]%nat. exact three_batches_yields.
  - exists [11; 12]%nat.
    eapply StreamingIterator.yields_more; [reflexivity | reflexivity |].
    eapply StreamingIterator.yields_more; [reflexivity | reflexivity |].
    eapply StreamingIterator.yields_end. reflexivity.
  - exists [12]%nat.
    eapply StreamingIterator.yields_more; [reflexivity | reflexivity |].
    eapply StreamingIterator.yields_end. reflexivity.
  - exists []. eapply StreamingIterator.yields_end. reflexivity.
Defined.




(** ** [PrefetchingIterator]: a background error *)
Section PrefetchErrors.
Import PrefetchingIterator.
Context {Batch Src : Type}.
Variable P : SI.source Batch Src.
Implicit Types (w : PrefetchingIterator.t Batch Src).

(** After the error has been surfaced nothing moves any more. *)
Lemma failed_exec w :
  status w = Failed → worker w = Stopped →
  ∀ sched obs w',
    exec P sched w = Some (obs, w') →
    w' = w ∧ (Produce ∉ sched) ∧ rethrown obs = [] ∧ delivered obs = []
    ∧ ∀ more, NextIs more ∈ obs → more = false.
Proof.
  intros Hs Hw. induction sched as [|a sched IH]; intros obs w'; simpl.
  - intros [= <- <-]. repeat split; try done.
    + apply not_elem_of_nil.
    + intros more Hin. by apply elem_of_nil in Hin.
  - destruct (step P a w) as [[o w1]|] eqn:Hstep; [|done].
    destruct (exec P sched w1) as [[os w2]|] eqn:Hrun; [|done].
    intros [= <- <-].
    assert (Hw1 : w1 = w ∧ a ≠ Produce
                  ∧ (o = NextIs false ∨ o = Invalid ∨ o = Rewound)).
    { destruct a; simpl in Hstep.
      - unfold produce in Hstep. rewrite Hw in Hstep. done.
      - unfold call_next in Hstep. rewrite Hs in Hstep.
        injection Hstep as <- <-. eauto.
      - unfold call_value in Hstep. rewrite Hs in Hstep.
        injection Hstep as <- <-. eauto.
      - unfold call_before_first in Hstep. rewrite Hs in Hstep.
        injection Hstep as <- <-. eauto 6. }
    destruct Hw1 as (-> & Ha & Ho).
    destruct (IH _ _ Hrun) as (-> & Hno & Hre & Hdl & Hnext).
    split; [done|]. split.
    { apply not_elem_of_cons. split; [congruence | done]. }
    destruct Ho as [-> | [-> | ->]]; csimpl; repeat split; try done;
      intros more Hin; apply elem_of_cons in Hin as [Hin|Hin];
      try discriminate; try (by apply Hnext).
    by injection Hin as ->.
Qed.

Lemma failed_never_blocks w :
  status w = Failed →
  ∀ sched, Produce ∉ sched → is_Some (exec P sched w).
Proof.
  intros Hs. induction sched as [|a sched IH]; intros Hno; simpl; [eauto|].
  apply not_elem_of_cons in Hno as [Ha Hno].
  destruct (IH Hno) as [[os w2] Hrun].
  destruct a; try done; simpl;
    unfold call_next, call_value, call_before_first; rewrite Hs, Hrun; eauto.
Qed.

(** While the error is captured and not yet surfaced, only a consumer
    call changes the wrapper, and it surfaces the error. *)
Lemma captured_exec w e :
  captured w = Some e → worker w = Stopped → status w = Ready →
  ∀ sched obs w',
    exec P sched w = Some (obs, w') →
    (Produce ∉ sched)
    ∧ if existsb consumer_call sched
      then rethrown obs = [e] ∧ w' = fail w
      else rethrown obs = [] ∧ w' = w.
Proof.
  intros Hcap Hw Hs. induction sched as [|a sched IH]; intros obs w'; simpl.
  - intros [= <- <-]. split; [apply not_elem_of_nil | done].
  - destruct (step P a w) as [[o w1]|] eqn:Hstep; [|done].
    destruct (exec P sched w1) as [[os w2]|] eqn:Hrun; [|done].
    intros [= <- <-].
    destruct a; simpl in Hstep.
    + unfold produce in Hstep. rewrite Hw in Hstep. done.
    + unfold call_next in Hstep. rewrite Hs, Hcap in Hstep.
      injection Hstep as <- <-.
      destruct (failed_exec (fail w) eq_refl Hw _ _ _ Hrun)
        as (-> & Hno & Hre & _).
      split; [apply not_elem_of_cons; done|]. csimpl. by rewrite Hre.
    + unfold call_value in Hstep. rewrite Hs, Hcap in Hstep.
      injection Hstep as <- <-.
      destruct (failed_exec (fail w) eq_refl Hw _ _ _ Hrun)
        as (-> & Hno & Hre & _).
      split; [apply not_elem_of_cons; done|]. csimpl. by rewrite Hre.
    + unfold call_before_first in Hstep. rewrite Hs, Hcap in Hstep.
      injection Hstep as <- <-.
      destruct (IH _ _ Hrun) as [Hno Hrest].
      split; [apply not_elem_of_cons; done|]. exact Hrest.
Qed.

(** C6: when the inner [next] raises [e] under the background loop, the
    loop captures [e] and stops for good.  Until the consumer calls
    [next] or [value] nothing is surfaced; the first such call re-raises
    [e] and leaves the wrapper terminally exhausted; in every execution
    [e] is surfaced at most once, and after it no move of the background
    loop is enabled, [next] returns false, no batch is delivered and no
    error is raised, whatever the consumer calls. *)
Theorem background_error_once w e st' :
  worker w = Running → status w = Ready → captured w = None →
  SI.next P (inner w) = (Err e, st') →
  ∃ w1 w2,
    produce P w = Some w1
    ∧ captured w1 = Some e ∧ produce P w1 = None
    ∧ call_next w1 = Some (Rethrown e, w2)
    ∧ call_value w1 = (Rethrown e, w2)
    ∧ status w2 = Failed ∧ captured w2 = None ∧ produce P w2 = None
    ∧ (∀ sched obs w3,
         exec P sched w1 = Some (obs, w3) →
         (Produce ∉ sched)
         ∧ if existsb consumer_call sched
           then rethrown obs = [e] ∧ w3 = w2
           else rethrown obs = [] ∧ w3 = w1)
    ∧ (∀ sched obs w3,
         exec P sched w2 = Some (obs, w3) →
         w3 = w2 ∧ (Produce ∉ sched) ∧ rethrown obs = [] ∧ delivered obs = []
         ∧ ∀ more, NextIs more ∈ obs → more = false)
    ∧ (∀ sched, Produce ∉ sched → is_Some (exec P sched w2)).
Proof.
  intros Hw Hs Hcap Hnext.
  exists (capture e st' w), (fail (capture e st' w)).
  split. { unfold produce. by rewrite Hw, Hnext. }
  split; [done|]. split; [done|].
  split. { unfold call_next. simpl. by rewrite Hs. }
  split. { unfold call_value. simpl. by rewrite Hs. }
  split; [done|]. split; [done|]. split; [done|].
  split; [|split].
  - apply captured_exec; done.
  - apply failed_exec; done.
  - apply failed_never_blocks; done.
Qed.

End PrefetchErrors.

Lemma background_error_once_witness :
  StreamingIterator.next Examples.failing_source
    (StreamingIterator.Ready 1%nat (Some 10%nat))
  = (Err (UpstreamIOError "truncated record"),
     StreamingIterator.Ready 1%nat (Some 10%nat))
  ∧ ∃ w1 w2,
      PrefetchingIterator.produce Examples.failing_source
        (PrefetchingIterator.start 4
           (StreamingIterator.Ready 1%nat (Some 10%nat))) = Some w1
      ∧ PrefetchingIterator.call_next w1
        = Some (PrefetchingIterator.Rethrown
                  (UpstreamIOError "truncated record"), w2)
      ∧ PrefetchingIterator.call_next w2
        = Some (PrefetchingIterator.NextIs false, w2).
Proof.
  split; [reflexivity|].
  destruct (background_error_once Examples.failing_source
              (PrefetchingIterator.start 4
                 (StreamingIterator.Ready 1%nat (Some 10%nat)))
              (UpstreamIOError "truncated record")
              (StreamingIterator.Ready 1%nat (Some 10%nat))
              eq_refl eq_refl eq_refl eq_refl)
    as (w1 & w2 & Hprod & _ & _ & Hnext & _ & Hfailed & _).
  exists w1, w2. split; [exact Hprod|]. split; [exact Hnext|].
  unfold PrefetchingIterator.call_next. rewrite Hfailed. reflexivity.
Defined.

(** ** Worked scenarios *)
Section Scenarios.
Import PrefetchingIterator.

(** Lookahead 1: the loop and the consumer alternate. *)
Example prefetch_depth_1 :
  Examples.consumed 1 [Producer; Producer; Consumer; Producer; Producer; Consumer;
              Producer; Producer; Consumer; Producer; Producer; Consumer]
  = Some [10; 11; 12]%nat.
Proof. vm_compute. reflexivity. Qed.

(** Lookahead 4 and 100: the loop runs ahead of the consumer. *)
Example prefetch_depth_4 :
  Examples.consumed 4 [Producer; Producer; Producer; Producer; Producer; Producer;
              Producer; Producer; Consumer; Consumer; Consumer; Consumer]
  = Some [10; 11; 12]%nat.
Proof. vm_compute. reflexivity. Qed.

Example prefetch_depth_100 :
  Examples.consumed 100 [Producer; Producer; Producer; Consumer; Producer; Producer;
                Producer; Consumer; Producer; Producer; Consumer; Consumer]
  = Some [10; 11; 12]%nat.
Proof. vm_compute. reflexivity. Qed.

(** With lookahead 1 the loop cannot run two batches ahead: it blocks. *)
Example prefetch_backpressure :
  Examples.consumed 1 [Producer; Producer; Producer; Producer] = None.
Proof. vm_compute. reflexivity. Qed.

(** A stream of three batches, drained twice with a rewind in between. *)
Example stream_two_epochs :
  (StreamingIterator.run Examples.three_batches
     [StreamingIterator.CallNext; StreamingIterator.CallValue;
      StreamingIterator.CallNext; StreamingIterator.CallNext;
      StreamingIterator.CallNext; StreamingIterator.CallNext;
      StreamingIterator.CallValue; StreamingIterator.CallBeforeFirst;
      StreamingIterator.CallNext; StreamingIterator.CallValue]
     (StreamingIterator.Ready 0%nat None)).1
  = [StreamingIterator.Advanced (Ok true); StreamingIterator.Current (Ok 10%nat);
     StreamingIterator.Advanced (Ok true); StreamingIterator.Advanced (Ok true);
     StreamingIterator.Advanced (Ok false);
     StreamingIterator.Advanced (Ok false);
     StreamingIterator.Current (Err InvalidState);
     StreamingIterator.Repositioned (Ok tt);
     StreamingIterator.Advanced (Ok true);
     StreamingIterator.Current (Ok 10%nat)].
Proof. vm_compute. reflexivity. Qed.

End Scenarios.

(** ** Further properties of [SanityCheck] *)
Section SanityCheckMore.
Import BatchifyFunction.
Context {T : Type}.
Implicit Types (inputs more : list (list T)) (sample : list T).

(** The loop over a concatenation: the second part is examined only when
    the first part passed, and its positions continue the count. *)
Lemma check_from_app out_size i rest more :
  check_from out_size i (rest ++ more)
  = match check_from out_size i rest with
    | Ok _ => check_from out_size (i + length rest) more
    | Err e => Err e
    end.
Proof.
  revert i. induction rest as [|sample rest IH]; intros i; simpl.
  - by rewrite Nat.add_0_r.
  - destruct (decide (length sample = out_size)); [|done].
    rewrite IH. by replace (S i + length rest)%nat with (i + S (length rest))%nat
      by lia.
Qed.

Lemma check_from_ok_inv out_size i rest n :
  check_from out_size i rest = Ok n →
  n = out_size ∧ Forall (λ sample, length sample = out_size) rest.
Proof.
  revert i. induction rest as [|sample rest IH]; intros i; simpl.
  - intros [= <-]. by split.
  - destruct (decide (length sample = out_size)); [|done].
    intros Hok. destruct (IH _ Hok) as [-> Hall]. split; [done|].
    by constructor.
Qed.

(** X1: the validation succeeds with [n] exactly when there is at least
    one sample and every sample has [n] fields. *)
Theorem sanity_check_ok_iff inputs n :
  SanityCheck inputs = Ok n
  ↔ inputs ≠ [] ∧ Forall (λ sample, length sample = n) inputs.
Proof.
  split.
  - intros Hok.
    destruct (SanityCheck_ok_inv _ _ Hok) as (first & rest & -> & _ & Hall).
    by split.
  - intros [Hne Hall]. destruct inputs as [|first rest]; [done|].
    inversion Hall as [|? ? Hfirst Hrest]; subst. simpl.
    by apply check_from_uniform.
Qed.

(** X2: a failure of the validation tells the truth.  [EmptyBatch] is
    returned only for the empty input; [ArityMismatch i n] only when [n] is
    the field count of the first sample, [i] is a position after the first
    and inside the input whose sample has another field count, and every
    sample before [i] has [n] fields.  No other failure is returned. *)
Theorem sanity_check_failure_report inputs e :
  SanityCheck inputs = Err e →
  (e = EmptyBatch ∧ inputs = [])
  ∨ ∃ i first bad,
      e = ArityMismatch i (length first)
      ∧ inputs !! 0%nat = Some first
      ∧ (1 ≤ i < length inputs)%nat
      ∧ inputs !! i = Some bad ∧ length bad ≠ length first
      ∧ ∀ k sample, (k < i)%nat → inputs !! k = Some sample →
          length sample = length first.
Proof.
  destruct inputs as [|first rest]; simpl.
  - intros [= <-]. by left.
  - intros Herr. right.
    destruct (decide (Forall (λ s, length s = length first) rest))
      as [Hall|Hno].
    { rewrite check_from_uniform in Herr by done. discriminate. }
    apply not_Forall_Exists in Hno; [|intros s; apply _].
    destruct (check_from_first_mismatch (length first) 1 rest)
      as (k & bad & Hk & Hbad & Hbefore & Hres).
    { eapply Exists_impl; [exact Hno|]. simpl. intros s Hs. exact Hs. }
    rewrite Hres in Herr. injection Herr as <-.
    exists (S k), first, bad. repeat split; try done.
    + lia.
    + apply lookup_lt_Some in Hk. simpl. lia.
    + intros [|k'] s Hlt Hs; simpl in Hs.
      * by injection Hs as ->.
      * eapply Hbefore; [|exact Hs]. lia.
Qed.

Lemma check_from_not_empty out_size i (rest : list (list T)) :
  check_from out_size i rest ≠ Err EmptyBatch.
Proof.
  revert i. induction rest as [|sample rest IH]; intros i; simpl; [done|].
  destruct (decide (length sample = out_size)); [apply IH | done].
Qed.

(** X3: the validation stops at the first mismatch.  When it fails on
    [inputs] with [ArityMismatch] it fails in the same way on
    [inputs ++ more], whatever [more] holds; when it succeeds on [inputs]
    with [n], then on [inputs ++ more] it succeeds with [n] if every sample
    of [more] has [n] fields, and otherwise reports the first such sample
    at its position in the concatenation.  The failure [EmptyBatch] is not
    kept: it means that [inputs] is empty, and the result on
    [inputs ++ more] is then the result on [more]. *)
Theorem sanity_check_extension inputs more :
  (∀ i n, SanityCheck inputs = Err (ArityMismatch i n) →
     SanityCheck (inputs ++ more) = Err (ArityMismatch i n))
  ∧ (∀ n, SanityCheck inputs = Ok n →
       Forall (λ sample, length sample = n) more →
       SanityCheck (inputs ++ more) = Ok n)
  ∧ (∀ n k bad, SanityCheck inputs = Ok n →
       more !! k = Some bad → length bad ≠ n →
       (∀ k' sample, (k' < k)%nat → more !! k' = Some sample →
          length sample = n) →
       SanityCheck (inputs ++ more)
       = Err (ArityMismatch (length inputs + k) n))
  ∧ (SanityCheck inputs = Err EmptyBatch →
     inputs = [] ∧ SanityCheck (inputs ++ more) = SanityCheck more).
Proof.
  destruct inputs as [|first rest]; simpl.
  { repeat split; intros; discriminate. }
  rewrite check_from_app. split; [|split; [|split]].
  - intros i n Herr. by rewrite Herr.
  - intros n Hok Hall. rewrite Hok.
    destruct (check_from_ok_inv _ _ _ _ Hok) as [-> _].
    by apply check_from_uniform.
  - intros n k bad Hok Hk Hbad Hbefore. rewrite Hok.
    destruct (check_from_ok_inv _ _ _ _ Hok) as [-> _].
    destruct (check_from_first_mismatch (length first) (1 + length rest) more)
      as (k0 & bad0 & Hk0 & Hbad0 & Hbefore0 & Hres).
    { apply Exists_exists. exists bad. split; [|done].
      eapply list_elem_of_lookup_2; exact Hk. }
    rewrite Hres. do 2 f_equal.
    assert (k0 = k); [|lia].
    destruct (Nat.lt_trichotomy k0 k) as [Hlt | [Heq | Hgt]]; [|done|].
    + exfalso. apply Hbad0. by eapply Hbefore.
    + exfalso. apply Hbad. by eapply Hbefore0.
  - intros Hempty. by apply check_from_not_empty in Hempty.
Qed.

(** X4: whether the validation accepts a batch does not depend on the order
    of the samples: a reordered input is accepted exactly when the original
    is, and with the same field count. *)
Theorem sanity_check_permutation inputs inputs' :
  inputs ≡ₚ inputs' →
  is_ok (SanityCheck inputs) = is_ok (SanityCheck inputs')
  ∧ ∀ n, SanityCheck inputs = Ok n → SanityCheck inputs' = Ok n.
Proof.
  intros Hperm.
  assert (Hmove : ∀ (xs ys : list (list T)) n, xs ≡ₚ ys →
            SanityCheck xs = Ok n → SanityCheck ys = Ok n).
  { intros xs ys n Hp Hok. apply sanity_check_ok_iff in Hok as [Hne Hall].
    apply sanity_check_ok_iff. split.
    - intros ->. apply Hne. by apply Permutation_nil_r.
    - by rewrite <- Hp. }
  split; [|intros n; by apply Hmove].
  destruct (SanityCheck inputs) as [n|e] eqn:Hin.
  - by rewrite (Hmove _ _ _ Hperm Hin).
  - destruct (SanityCheck inputs') as [n'|e'] eqn:Hin'; [|done].
    symmetry in Hperm. rewrite (Hmove _ _ _ Hperm Hin') in Hin. discriminate.
Qed.

(** X5: after a successful validation with [n] the input is a full
    rectangle: every sample position [i] inside the input and every field
    position [j] below [n] holds a field, and the input holds
    [length inputs * n] fields in all. *)
Theorem sanity_check_rectangle inputs n :
  SanityCheck inputs = Ok n →
  (∀ i j, (i < length inputs)%nat → (j < n)%nat →
     ∃ sample x, inputs !! i = Some sample ∧ sample !! j = Some x)
  ∧ length (concat inputs) = (length inputs * n)%nat.
Proof.
  intros Hok. apply sanity_check_ok_iff in Hok as [_ Hall]. split.
  - intros i j Hi Hj.
    destruct (lookup_lt_is_Some_2 inputs i Hi) as [sample Hs].
    assert (Hlen : length sample = n).
    { eapply (proj1 (Forall_lookup _ _) Hall); exact Hs. }
    destruct (lookup_lt_is_Some_2 sample j) as [x Hx]; [lia|].
    by exists sample, x.
  - induction Hall as [|sample rest Hlen _ IH]; simpl; [done|].
    rewrite length_app, IH, Hlen. lia.
Qed.

End SanityCheckMore.

Lemma sanity_check_ok_iff_witness :
  BatchifyFunction.SanityCheck [[1; 2]; [3; 4]; [5; 6]]%nat = Ok 2%nat.
Proof.
  apply (proj2 (sanity_check_ok_iff [[1; 2]; [3; 4]; [5; 6]]%nat 2%nat)).
  split; [discriminate|]. repeat constructor.
Defined.

Lemma sanity_check_failure_report_witness :
  BatchifyFunction.SanityCheck Examples.ragged_inputs
    = Err (ArityMismatch 2 2)
  ∧ ((ArityMismatch 2 2 = EmptyBatch ∧ Examples.ragged_inputs = [])
     ∨ ∃ i first bad,
         ArityMismatch 2 2 = ArityMismatch i (length first)
         ∧ Examples.ragged_inputs !! 0%nat = Some first
         ∧ (1 ≤ i < length Examples.ragged_inputs)%nat
         ∧ Examples.ragged_inputs !! i = Some bad
         ∧ length bad ≠ length first
         ∧ ∀ k sample, (k < i)%nat →
             Examples.ragged_inputs !! k = Some sample →
             length sample = length first).
Proof.
  split; [reflexivity|].
  apply (sanity_check_failure_report Examples.ragged_inputs
           (ArityMismatch 2 2)).
  reflexivity.
Defined.

Lemma sanity_check_extension_witness :
  BatchifyFunction.SanityCheck Examples.ragged_inputs
    = Err (ArityMismatch 2 2)
  ∧ BatchifyFunction.SanityCheck (Examples.ragged_inputs ++ [[6; 7]%nat])
    = Err (ArityMismatch 2 2).
Proof.
  split; [reflexivity|].
  apply (proj1 (sanity_check_extension Examples.ragged_inputs [[6; 7]%nat])).
  reflexivity.
Defined.

Lemma sanity_check_permutation_witness :
  [[1; 2]; [3]; [4; 5]]%nat ≡ₚ [[3]; [1; 2]; [4; 5]]%nat
  ∧ is_ok (BatchifyFunction.SanityCheck [[1; 2]; [3]; [4; 5]]%nat)
    = is_ok (BatchifyFunction.SanityCheck [[3]; [1; 2]; [4; 5]]%nat).
Proof.
  assert (Hperm : [[1; 2]; [3]; [4; 5]]%nat ≡ₚ [[3]; [1; 2]; [4; 5]]%nat).
  { apply perm_swap. }
  split; [exact Hperm|].
  apply (sanity_check_permutation _ _ Hperm).
Defined.

Lemma sanity_check_rectangle_witness :
  BatchifyFunction.SanityCheck [[1; 2]; [3; 4]; [5; 6]]%nat = Ok 2%nat
  ∧ length (concat [[1; 2]; [3; 4]; [5; 6]]%nat) = (3 * 2)%nat.
Proof.
  split; [reflexivity|].
  apply (sanity_check_rectangle [[1; 2]; [3; 4]; [5; 6]]%nat 2%nat).
  reflexivity.
Defined.

(** ** Further properties of [SetDataName] *)
Section SetDataNameMore.
Import IIterator.
Context {DType Self : Type}.
Implicit Types (it : IIterator.t (DType := DType) Self).

(** X6: a sequence of [SetDataName] calls stores the names in the order of
    the calls, after the names that were there; nothing is dropped,
    reordered or merged, so a name set twice is stored twice. *)
Theorem set_data_names_in_call_order it (names : list string) :
  data_names (foldl (λ it' name, SetDataName name it') it names)
  = data_names it ++ names
  ∧ length (data_names (foldl (λ it' name, SetDataName name it') it names))
    = (length (data_names it) + length names)%nat
  ∧ ∀ name, data_names (SetDataName name (SetDataName name it))
            = data_names it ++ [name; name].
Proof.
  assert (Hfold : ∀ names it,
            data_names (foldl (λ it' name, SetDataName name it') it names)
            = data_names it ++ names).
  { clear. induction names as [|name names IH]; intros it; simpl.
    - by rewrite app_nil_r.
    - rewrite IH. simpl. by rewrite <- app_assoc. }
  split; [apply Hfold|]. split.
  - rewrite Hfold. apply length_app.
  - intros name. simpl. by rewrite <- app_assoc.
Qed.

End SetDataNameMore.
